(** * virhash: chained, string-keyed hash tables (src/util/virhash.c)

    A shallow embedding of the table operations of [virhash.c] and the
    properties its specification states about them.

    Conventions of the embedding
    - pointers to payloads and function pointers are integers, [NULL] is 0;
    - a nullable [virHashTablePtr] argument is an [option virHashTable]
      ([None] is the null pointer); a function that mutates the table in
      place returns the table it leaves behind;
    - a nullable [const char *] argument is an [option string], the
      string being the bytes before the terminating NUL;
    - [size_t] is 64 bits wide and [uint32_t] 32 bits wide, wrap-around is
      written out;
    - a bucket array is a list of chains, a chain (the [next]-linked
      entries of one bucket) is the list of its entries from the head on;
    - calls of the registered [dataFree] destructor and of [virReportError]
      are recorded as the events a call emits, in the order of the calls;
    - a callback with an opaque pointer is a function that takes and
      returns the state its opaque pointer refers to. *)

From Stdlib Require Import ZArith Lia Sorting.Sorted.
From stdpp Require Import base list strings gmap.

Local Open Scope Z_scope.

(** ** Machine integers *)

Definition wrap32 (z : Z) : Z := z mod 2 ^ 32.
Definition wrap_size_t (z : Z) : Z := z mod 2 ^ 64.
(** Conversion of a [size_t] to [ssize_t]. *)
Definition to_ssize_t (z : Z) : Z :=
  if wrap_size_t z <? 2 ^ 63 then wrap_size_t z else wrap_size_t z - 2 ^ 64.

Definition NULL : Z := 0.

(** ** Strings *)

(** [strcmp]: byte-wise comparison; only the sign of the result is
    specified by C, it is normalised to -1, 0, 1 here. *)
Definition strcmp (a b : string) : Z :=
  match String.compare a b with
  | Lt => -1
  | Eq => 0
  | Gt => 1
  end.

Definition STREQ (a b : string) : bool := strcmp a b =? 0.

(** ** Data model *)

Definition MAX_HASH_LEN : Z := 8.

(** [struct _virHashEntry]; the [next] link is the position in the chain. *)
Record virHashEntry := mkEntry {
  e_name : string;
  e_payload : Z
}.

(** [struct _virHashTable]. *)
Record virHashTable := mkTable {
  ht_table : list (list virHashEntry);
  ht_seed : Z;
  ht_size : Z;
  ht_nbElems : Z;
  ht_dataFree : Z
}.

Inductive event :=
| EvDataFree (fn : Z) (payload : Z)
    (* a call [fn(payload)] of the destructor registered in the table *)
| EvReportError (key : string).
    (* virReportError(VIR_ERR_INTERNAL_ERROR, "Duplicate hash table key '%s'") *)

(** [virHashIterator] and [virHashSearcher]: payload, name and the state
    behind the opaque pointer; the [int] result and the state left. *)
Definition virHashIterator (A : Type) := Z -> string -> A -> Z * A.
Definition virHashSearcher (A : Type) := Z -> string -> A -> Z * A.
Definition virHashValueComparator := Z -> Z -> Z.

Record virHashKeyValuePair := mkPair {
  kv_key : option string;
  kv_value : Z
}.

Record virHashGetItemsIteratorData := mkItData {
  it_items : list virHashKeyValuePair;
  it_i : Z
}.

Definition set_table (t : virHashTable) (tb : list (list virHashEntry)) : virHashTable :=
  mkTable tb (ht_seed t) (ht_size t) (ht_nbElems t) (ht_dataFree t).
Definition set_nbElems (t : virHashTable) (n : Z) : virHashTable :=
  mkTable (ht_table t) (ht_seed t) (ht_size t) n (ht_dataFree t).
Definition set_dataFree (t : virHashTable) (f : Z) : virHashTable :=
  mkTable (ht_table t) (ht_seed t) (ht_size t) (ht_nbElems t) f.

(** [table->table[key]]: the chain of a bucket (the model reads an empty
    chain where C would read outside the array). *)
Definition bucket (t : virHashTable) (key : Z) : list virHashEntry :=
  default [] (ht_table t !! Z.to_nat key).

(** [table->table[key] = chain]. *)
Definition set_bucket (t : virHashTable) (key : Z) (chain : list virHashEntry) : virHashTable :=
  set_table t (<[Z.to_nat key := chain]> (ht_table t)).

(** The walk [for (entry = chain; entry; entry = entry->next)] up to the
    first entry with [STREQ(entry->name, name)]: its position and itself. *)
Fixpoint chainFind (name : string) (chain : list virHashEntry) : option (nat * virHashEntry) :=
  match chain with
  | [] => None
  | entry :: rest =>
      if STREQ (e_name entry) name then Some (0%nat, entry)
      else match chainFind name rest with
           | Some (i, e) => Some (S i, e)
           | None => None
           end
  end.

(** Every entry in the order the bucket walks visit them: buckets in
    array order, each chain from its head. *)
Definition virHashEntries (t : virHashTable) : list virHashEntry :=
  mjoin (ht_table t).

Definition virHashKeys (t : virHashTable) : list string :=
  e_name <$> virHashEntries t.

(** A hash function used to run the table on concrete inputs. Names of
    the same length collide under it, for every seed. *)
Definition lengthHashCodeGen (key : string) (len : Z) (seed : Z) : Z :=
  len + seed.

(** Tables used to run the operations on concrete inputs. Each is a
    table that operations on a fresh table with seed 7 (seed 8 for
    [nullTable2]) and the destructor at address 99 lead to, with
    [lengthHashCodeGen] as the hash function. *)
Definition abcTable : virHashTable :=
  mkTable (<[8%nat := [mkEntry "b" 1; mkEntry "a" 2; mkEntry "c" 3]]> (replicate 32 []))
          7 32 3 99.

Definition nullTable : virHashTable :=
  mkTable (<[8%nat := [mkEntry "a" NULL]]> (replicate 32 [])) 7 32 1 99.

Definition nullTable2 : virHashTable :=
  mkTable (<[9%nat := [mkEntry "a" NULL]]> (replicate 32 [])) 8 32 1 99.

Definition eightTable : virHashTable :=
  mkTable (<[9%nat := [mkEntry "k1" 1; mkEntry "k2" 2; mkEntry "k3" 3; mkEntry "k4" 4;
                       mkEntry "k5" 5; mkEntry "k6" 6; mkEntry "k7" 7; mkEntry "k8" 8]]>
             (replicate 32 []))
          7 32 8 99.

Definition nineTable : virHashTable :=
  mkTable (<[9%nat := [mkEntry "k1" 1; mkEntry "k2" 2; mkEntry "k3" 3; mkEntry "k4" 4;
                       mkEntry "k5" 5; mkEntry "k6" 6; mkEntry "k7" 7; mkEntry "k8" 8;
                       mkEntry "k9" 9]]>
             (replicate 32 []))
          7 32 9 99.

(** Two live tables at the addresses 1 and 2. *)
Definition twoTables : gmap Z virHashTable :=
  <[1 := nullTable]> (<[2 := nullTable2]> ∅).

(** A comparator of payloads that are integers stored in the pointer. *)
Definition comparePayloads : virHashValueComparator := fun a b => a - b.

(** The entries of [abcTable] in a table with seed 8, and the two tables
    at the addresses 1 and 2. *)
Definition abcTable2 : virHashTable :=
  mkTable (<[9%nat := [mkEntry "c" 3; mkEntry "a" 2; mkEntry "b" 1]]> (replicate 32 []))
          8 32 3 99.

Definition abcTables : gmap Z virHashTable :=
  <[1 := abcTable]> (<[2 := abcTable2]> ∅).

Section VirHash.

(** The seeded string hash of virhashcode.h (key, length, seed), which
    the table consumes and does not implement. *)
Variable virHashCodeGen : string -> Z -> Z -> Z.

Definition virHashComputeKey (t : virHashTable) (name : string) : Z :=
  let value := wrap32 (virHashCodeGen name (Z.of_nat (String.length name)) (ht_seed t)) in
  value mod ht_size t.

(** [virHashNew]; [randomBits] is what [virRandomBits(32)] returns. *)
Definition virHashNew (randomBits : Z) (dataFree : Z) : virHashTable :=
  {| ht_table := replicate 32 [];
     ht_seed := wrap32 randomBits;
     ht_size := 32;
     ht_nbElems := 0;
     ht_dataFree := dataFree |}.

(** One turn of the inner loop of [virHashGrow]: the entry becomes the
    head of its chain in the new array. *)
Definition rechain (t : virHashTable) (iter : virHashEntry) : virHashTable :=
  let key := virHashComputeKey t (e_name iter) in
  set_bucket t key (iter :: bucket t key).

(** [virHashGrow]. The array of a table is never null ([g_new0] aborts
    instead of returning null), so the test of [oldtable] is not taken. *)
Definition virHashGrow (table : option virHashTable) (size : Z) : Z * option virHashTable :=
  match table with
  | None => (-1, None)
  | Some t =>
      if size <? 8 then (-1, table)
      else if size >? 8 * 2048 then (-1, table)
      else
        let oldtable := ht_table t in
        let t0 := mkTable (replicate (Z.to_nat size) []) (ht_seed t) size
                          (ht_nbElems t) (ht_dataFree t) in
        (0, Some (fold_left (fun acc chain => fold_left rechain chain acc) oldtable t0))
  end.

Definition virHashAddOrUpdateEntry (table : option virHashTable) (name : option string)
    (userdata : Z) (is_update : bool) : Z * option virHashTable * list event :=
  match table, name with
  | Some t, Some name =>
      let key := virHashComputeKey t name in
      match chainFind name (bucket t key) with
      | Some (i, entry) =>
          if is_update then
            (0,
             Some (set_bucket t key (<[i := mkEntry (e_name entry) userdata]> (bucket t key))),
             if ht_dataFree t =? NULL then [] else [EvDataFree (ht_dataFree t) (e_payload entry)])
          else (-1, table, [EvReportError name])
      | None =>
          let len := Z.of_nat (length (bucket t key)) in
          let entry := mkEntry name userdata in
          let t1 := set_nbElems (set_bucket t key (bucket t key ++ [entry]))
                                (wrap_size_t (ht_nbElems t + 1)) in
          if len >? MAX_HASH_LEN then
            (0, snd (virHashGrow (Some t1) (wrap_size_t (MAX_HASH_LEN * ht_size t1))), [])
          else (0, Some t1, [])
      end
  | _, _ => (-1, table, [])
  end.

Definition virHashAddEntry (table : option virHashTable) (name : option string) (userdata : Z) :=
  virHashAddOrUpdateEntry table name userdata false.

Definition virHashUpdateEntry (table : option virHashTable) (name : option string) (userdata : Z) :=
  virHashAddOrUpdateEntry table name userdata true.

(** [virHashGetEntry]: the entry found, [None] for the null pointer. *)
Definition virHashGetEntry (table : option virHashTable) (name : option string) : option virHashEntry :=
  match table, name with
  | Some t, Some name => snd <$> chainFind name (bucket t (virHashComputeKey t name))
  | _, _ => None
  end.

Definition virHashLookup (table : option virHashTable) (name : option string) : Z :=
  match virHashGetEntry table name with
  | None => NULL
  | Some entry => e_payload entry
  end.

Definition virHashHasEntry (table : option virHashTable) (name : option string) : bool :=
  match virHashGetEntry table name with
  | None => false
  | Some _ => true
  end.

Definition virHashSize (table : option virHashTable) : Z :=
  match table with
  | None => -1
  | Some t => to_ssize_t (ht_nbElems t)
  end.

Definition virHashRemoveEntry (table : option virHashTable) (name : option string)
    : Z * option virHashTable * list event :=
  match table, name with
  | Some t, Some name =>
      let key := virHashComputeKey t name in
      match chainFind name (bucket t key) with
      | Some (i, entry) =>
          (0,
           Some (set_nbElems (set_bucket t key (delete i (bucket t key)))
                             (wrap_size_t (ht_nbElems t - 1))),
           if ht_dataFree t =? NULL then [] else [EvDataFree (ht_dataFree t) (e_payload entry)])
      | None => (-1, table, [])
      end
  | _, _ => (-1, table, [])
  end.

Definition virHashSteal (table : option virHashTable) (name : option string)
    : Z * option virHashTable * list event :=
  let data := virHashLookup table name in
  if data =? NULL then (data, table, [])
  else
    match table with
    | Some t =>
        let dataFree := ht_dataFree t in
        let '(_, table', evs) := virHashRemoveEntry (Some (set_dataFree t NULL)) name in
        (data, (fun t' => set_dataFree t' dataFree) <$> table', evs)
    | None => (data, None, [])
    end.

(** [virHashForEach]: the callback is applied to the entries in bucket
    order; a negative result stops the walk and is returned. *)
Fixpoint forEachEntries {A} (iter : virHashIterator A) (entries : list virHashEntry)
    (opaque : A) : Z * A :=
  match entries with
  | [] => (0, opaque)
  | entry :: next =>
      let '(ret, opaque') := iter (e_payload entry) (e_name entry) opaque in
      if ret <? 0 then (ret, opaque') else forEachEntries iter next opaque'
  end.

Definition virHashForEach {A} (table : option virHashTable) (iter : option (virHashIterator A))
    (opaque : A) : Z * A :=
  match table, iter with
  | Some t, Some iter => forEachEntries iter (virHashEntries t) opaque
  | _, _ => (-1, opaque)
  end.

(** State of the walk of [virHashRemoveSet]: [count], [table->nbElems],
    the state behind [opaque] and the destructor calls made so far. *)
Record removeSetState (A : Type) := mkRS {
  rs_count : Z;
  rs_nbElems : Z;
  rs_opaque : A;
  rs_events : list event
}.
Arguments mkRS {A}.
Arguments rs_count {A}.
Arguments rs_nbElems {A}.
Arguments rs_opaque {A}.
Arguments rs_events {A}.

(** The [while] loop over one chain, which follows [nextptr]: the chain
    it leaves and the state of the walk. *)
Fixpoint removeSetChain {A} (iter : virHashSearcher A) (dataFree : Z)
    (chain : list virHashEntry) (st : removeSetState A) : list virHashEntry * removeSetState A :=
  match chain with
  | [] => ([], st)
  | entry :: next =>
      let '(r, opaque') := iter (e_payload entry) (e_name entry) (rs_opaque st) in
      if r =? 0 then
        let '(kept, st') :=
          removeSetChain iter dataFree next
            (mkRS (rs_count st) (rs_nbElems st) opaque' (rs_events st)) in
        (entry :: kept, st')
      else
        removeSetChain iter dataFree next
          (mkRS (wrap_size_t (rs_count st + 1))
                (wrap_size_t (rs_nbElems st - 1))
                opaque'
                (rs_events st ++
                 (if dataFree =? NULL then [] else [EvDataFree dataFree (e_payload entry)])))
  end.

Fixpoint removeSetBuckets {A} (iter : virHashSearcher A) (dataFree : Z)
    (buckets : list (list virHashEntry)) (st : removeSetState A)
    : list (list virHashEntry) * removeSetState A :=
  match buckets with
  | [] => ([], st)
  | chain :: rest =>
      let '(chain', st1) := removeSetChain iter dataFree chain st in
      let '(rest', st2) := removeSetBuckets iter dataFree rest st1 in
      (chain' :: rest', st2)
  end.

Definition virHashRemoveSet {A} (table : option virHashTable) (iter : option (virHashSearcher A))
    (opaque : A) : Z * option virHashTable * A * list event :=
  match table, iter with
  | Some t, Some iter =>
      let '(buckets, st) :=
        removeSetBuckets iter (ht_dataFree t) (ht_table t) (mkRS 0 (ht_nbElems t) opaque []) in
      (to_ssize_t (rs_count st),
       Some (set_nbElems (set_table t buckets) (rs_nbElems st)),
       rs_opaque st, rs_events st)
  | _, _ => (-1, table, opaque, [])
  end.

Definition _virHashRemoveAllIter : virHashSearcher unit :=
  fun _ _ opaque => (1, opaque).

Definition virHashRemoveAll (table : option virHashTable) : option virHashTable * list event :=
  let '(_, table', _, evs) := virHashRemoveSet table (Some _virHashRemoveAllIter) tt in
  (table', evs).

(** The walk of [virHashSearch]: the first entry the callback accepts. *)
Fixpoint searchEntries {A} (iter : virHashSearcher A) (entries : list virHashEntry)
    (opaque : A) : option virHashEntry * A :=
  match entries with
  | [] => (None, opaque)
  | entry :: next =>
      let '(r, opaque') := iter (e_payload entry) (e_name entry) opaque in
      if r =? 0 then searchEntries iter next opaque' else (Some entry, opaque')
  end.

(** [virHashSearch]: the payload returned, what is stored through [name]
    ([wantName] tells whether [name] is non-null) and the opaque state. *)
Definition virHashSearch {A} (table : option virHashTable) (iter : option (virHashSearcher A))
    (opaque : A) (wantName : bool) : Z * option string * A :=
  match table, iter with
  | Some t, Some iter =>
      match searchEntries iter (virHashEntries t) opaque with
      | (Some entry, opaque') =>
          (e_payload entry, if wantName then Some (e_name entry) else None, opaque')
      | (None, opaque') => (NULL, None, opaque')
      end
  | _, _ => (NULL, None, opaque)
  end.

Definition virHashGetItemsIterator : virHashIterator virHashGetItemsIteratorData :=
  fun payload key data =>
    (0, mkItData (<[Z.to_nat (it_i data) := mkPair (Some key) payload]> (it_items data))
                 (wrap_size_t (it_i data + 1))).

(** [strcmp(a->key, b->key)]; the keys qsort compares are never null. *)
Definition virHashGetItemsKeySorter (a b : virHashKeyValuePair) : Z :=
  match kv_key a, kv_key b with
  | Some ka, Some kb => strcmp ka kb
  | _, _ => 0
  end.

(** libc's [qsort(base, nmemb, size, compar)] sorts the first [nmemb]
    elements of the array; it is modelled by an insertion sort. *)
Fixpoint qsort_insert {X} (compar : X -> X -> Z) (x : X) (l : list X) : list X :=
  match l with
  | [] => [x]
  | y :: l' => if compar x y <=? 0 then x :: y :: l' else y :: qsort_insert compar x l'
  end.

Definition qsort {X} (base : list X) (nmemb : Z) (compar : X -> X -> Z) : list X :=
  foldr (qsort_insert compar) [] (take (Z.to_nat nmemb) base) ++ drop (Z.to_nat nmemb) base.

(** [virHashGetItems]: the array returned (the empty list is the null
    pointer [g_new0] returns for zero elements) and what is stored
    through [nitems]. *)
Definition virHashGetItems (table : option virHashTable) (sortKeys : bool)
    : list virHashKeyValuePair * Z :=
  let nitems := wrap_size_t (virHashSize table) in
  let data := mkItData (replicate (Z.to_nat (wrap_size_t (nitems + 1))) (mkPair None NULL)) 0 in
  let '(_, data) := virHashForEach table (Some virHashGetItemsIterator) data in
  (if sortKeys then qsort (it_items data) nitems virHashGetItemsKeySorter else it_items data,
   nitems).

(** The loop [for (i = 0; items[i].key; i++)] of the snapshot walks. *)
Fixpoint forEachItems {A} (iter : virHashIterator A) (items : list virHashKeyValuePair)
    (opaque : A) : Z * A :=
  match items with
  | [] => (0, opaque)
  | item :: next =>
      match kv_key item with
      | None => (0, opaque)
      | Some key =>
          let '(ret, opaque') := iter (kv_value item) key opaque in
          if ret <? 0 then (-1, opaque') else forEachItems iter next opaque'
      end
  end.

Definition virHashForEachSafe {A} (table : option virHashTable) (iter : virHashIterator A)
    (opaque : A) : Z * A :=
  match fst (virHashGetItems table false) with
  | [] => (-1, opaque)
  | items => forEachItems iter items opaque
  end.

Definition virHashForEachSorted {A} (table : option virHashTable) (iter : virHashIterator A)
    (opaque : A) : Z * A :=
  match fst (virHashGetItems table true) with
  | [] => (-1, opaque)
  | items => forEachItems iter items opaque
  end.

Record virHashEqualData := mkEqData {
  eq_equal : bool;
  eq_table2 : option virHashTable;
  eq_compar : virHashValueComparator
}.

Definition virHashEqualSearcher : virHashSearcher virHashEqualData :=
  fun payload name vhed =>
    let value := virHashLookup (eq_table2 vhed) (Some name) in
    if (value =? NULL) || negb (eq_compar vhed value payload =? 0) then
      (1, mkEqData false (eq_table2 vhed) (eq_compar vhed))
    else (0, vhed).

(** Tables compared by [virHashEqual] are given by reference: [mem] maps
    the address of a live table to the table, [NULL] is no table. *)
Definition deref (mem : gmap Z virHashTable) (p : Z) : option virHashTable :=
  if p =? NULL then None else mem !! p.

Definition virHashEqual (mem : gmap Z virHashTable) (table1 table2 : Z)
    (compar : virHashValueComparator) : bool :=
  let data := mkEqData true (deref mem table2) compar in
  if table1 =? table2 then true
  else if (table1 =? NULL) || (table2 =? NULL)
          || negb (virHashSize (deref mem table1) =? virHashSize (deref mem table2))
  then false
  else
    let '(_, _, data) := virHashSearch (deref mem table1) (Some virHashEqualSearcher) data false in
    eq_equal data.

(** ** The tables the mutators leave *)

(** The table [virHashAddOrUpdateEntry] builds for a name that is not in
    the chain, before it considers growing. *)
Definition appended (t : virHashTable) (name : string) (userdata : Z) : virHashTable :=
  let key := virHashComputeKey t name in
  set_nbElems (set_bucket t key (bucket t key ++ [mkEntry name userdata]))
              (wrap_size_t (ht_nbElems t + 1)).

(** The table [virHashAddOrUpdateEntry] leaves when it overwrites the
    payload of the entry found at position [i] of its chain. *)
Definition overwritten (t : virHashTable) (name : string) (i : nat) (userdata : Z) : virHashTable :=
  let key := virHashComputeKey t name in
  set_bucket t key (<[i := mkEntry name userdata]> (bucket t key)).

(** The table [virHashRemoveEntry] leaves when it unlinks the entry at
    position [i] of the chain of [name]. *)
Definition unlinked (t : virHashTable) (name : string) (i : nat) : virHashTable :=
  let key := virHashComputeKey t name in
  set_nbElems (set_bucket t key (delete i (bucket t key)))
              (wrap_size_t (ht_nbElems t - 1)).

(** Whether the chain a name hashes to holds more than [MAX_HASH_LEN]
    entries. *)
Definition chainExceeds (t : virHashTable) (name : string) : bool :=
  Z.of_nat (length (bucket t (virHashComputeKey t name))) >? MAX_HASH_LEN.

(** The table an insertion that appends leaves, when it asks for a grow
    exactly if [grows]. *)
Definition insertionResult (t : virHashTable) (name : string) (userdata : Z)
    (grows : bool) : option virHashTable :=
  if grows then
    snd (virHashGrow (Some (appended t name userdata))
           (wrap_size_t (MAX_HASH_LEN * ht_size t)))
  else Some (appended t name userdata).

(** An appending insertion that grows exactly when the chain, with the
    new entry in it, is longer than the threshold. *)
Definition growsWhenGrownChainExceeds (t : virHashTable) (name : string) (userdata : Z) : Prop :=
  (virHashAddEntry (Some t) (Some name) userdata).1.2
  = insertionResult t name userdata (chainExceeds (appended t name userdata) name).

(** A steal that hands out the payload of the key and takes the entry
    out of the table without a call of the destructor. *)
Definition stealTakesEntry (t : virHashTable) (name : string) : Prop :=
  exists table' evs,
    virHashSteal (Some t) (Some name) = (virHashLookup (Some t) (Some name), table', evs) /\
    virHashHasEntry table' (Some name) = false /\
    virHashLookup table' (Some name) = NULL /\
    forall fn payload, EvDataFree fn payload ∉ evs.

(** Every key of [t1] is a key of [t2], with a payload that the
    comparator finds equal to the one in [t1]. *)
Definition everyKeyMatches (t1 t2 : virHashTable) (compar : virHashValueComparator) : Prop :=
  forall entry, entry ∈ virHashEntries t1 ->
    virHashHasEntry (Some t2) (Some (e_name entry)) = true /\
    compar (virHashLookup (Some t2) (Some (e_name entry))) (e_payload entry) = 0.

(** The same with a lookup in [t2] that returns a payload other than
    null. *)
Definition everyKeyMatchesNonNull (t1 t2 : virHashTable) (compar : virHashValueComparator)
    : Prop :=
  forall entry, entry ∈ virHashEntries t1 ->
    virHashLookup (Some t2) (Some (e_name entry)) <> NULL /\
    compar (virHashLookup (Some t2) (Some (e_name entry))) (e_payload entry) = 0.

(** The test [virHashEqualSearcher] makes on an entry of the first
    table, as the condition under which the walk goes on. *)
Definition entryMatches (table2 : option virHashTable) (compar : virHashValueComparator)
    (entry : virHashEntry) : bool :=
  negb ((virHashLookup table2 (Some (e_name entry)) =? NULL)
        || negb (compar (virHashLookup table2 (Some (e_name entry))) (e_payload entry) =? 0)).

(** The snapshot of an entry in the array of [virHashGetItems], the
    element that ends the array, and the order of the sorted snapshot. *)
Definition toPair (entry : virHashEntry) : virHashKeyValuePair :=
  mkPair (Some (e_name entry)) (e_payload entry).

Definition sentinel : virHashKeyValuePair := mkPair None NULL.

Definition entryCmp (a b : virHashEntry) : Z := strcmp (e_name a) (e_name b).

Definition keyLt (a b : virHashEntry) : Prop := strcmp (e_name a) (e_name b) < 0.

(** ** Well-formed tables

    The invariants of the data model, as a check that can be run: the
    array has [size] buckets, [size] is positive and at most the largest
    size [virHashGrow] accepts, every entry is in the bucket its name
    hashes to, no name occurs twice, and [nbElems] counts the entries
    (and fits the [ssize_t] that [virHashSize] returns). *)

Fixpoint chainsPlaced (t : virHashTable) (i : Z) (buckets : list (list virHashEntry)) : bool :=
  match buckets with
  | [] => true
  | chain :: rest =>
      forallb (fun entry => virHashComputeKey t (e_name entry) =? i) chain
      && chainsPlaced t (i + 1) rest
  end.

Definition wfb (t : virHashTable) : bool :=
  (length (ht_table t) =? Z.to_nat (ht_size t))%nat
  && (0 <? ht_size t) && (ht_size t <=? 8 * 2048)
  && chainsPlaced t 0 (ht_table t)
  && bool_decide (NoDup (virHashKeys t))
  && (ht_nbElems t =? Z.of_nat (length (virHashEntries t)))
  && (ht_nbElems t <? 2 ^ 63).

Definition wf (t : virHashTable) : Prop := wfb t = true.

(** The part of the invariant that [virHashGrow] sets up entry by entry. *)
Record placed (t : virHashTable) : Prop := mkPlaced {
  pl_length : length (ht_table t) = Z.to_nat (ht_size t);
  pl_size : 0 < ht_size t <= 8 * 2048;
  pl_placed : forall i chain entry,
    ht_table t !! i = Some chain -> entry ∈ chain ->
    virHashComputeKey t (e_name entry) = Z.of_nat i
}.

(** What the check establishes. *)
Record wellFormed (t : virHashTable) : Prop := mkWellFormed {
  wf_length : length (ht_table t) = Z.to_nat (ht_size t);
  wf_size : 0 < ht_size t <= 8 * 2048;
  wf_placed : forall i chain entry,
    ht_table t !! i = Some chain -> entry ∈ chain ->
    virHashComputeKey t (e_name entry) = Z.of_nat i;
  wf_unique : NoDup (virHashKeys t);
  wf_count : ht_nbElems t = Z.of_nat (length (virHashEntries t));
  wf_repr : ht_nbElems t < 2 ^ 63
}.

(** The set of the keys present in a table. *)
Definition keySet (table : option virHashTable) : gset string :=
  match table with
  | None => ∅
  | Some t => list_to_set (virHashKeys t)
  end.

(** ** Sequences of operations *)

Inductive op :=
| OpAdd (name : option string) (userdata : Z)
| OpUpdate (name : option string) (userdata : Z)
| OpRemove (name : option string)
| OpSteal (name : option string)
| OpRemoveSet (A : Type) (iter : option (virHashSearcher A)) (opaque : A)
| OpRemoveAll.

Definition apply_op (table : option virHashTable) (o : op) : option virHashTable :=
  match o with
  | OpAdd name userdata => (virHashAddEntry table name userdata).1.2
  | OpUpdate name userdata => (virHashUpdateEntry table name userdata).1.2
  | OpRemove name => (virHashRemoveEntry table name).1.2
  | OpSteal name => (virHashSteal table name).1.2
  | OpRemoveSet A iter opaque => (virHashRemoveSet table iter opaque).1.1.2
  | OpRemoveAll => (virHashRemoveAll table).1
  end.

Definition run (ops : list op) (table : option virHashTable) : option virHashTable :=
  fold_left apply_op ops table.

(** What holds of the table after at most [n] operations on a fresh one. *)
Definition reachableInv (n : Z) (table : option virHashTable) : Prop :=
  exists t, table = Some t /\ wellFormed t /\ ht_nbElems t <= n.

(** ** Destruction, stateless callbacks and the map a table stands for *)

(** The inner loop of [virHashFree] over one chain: the destructor calls
    it makes. *)
Fixpoint freeChain (dataFree : Z) (chain : list virHashEntry) : list event :=
  match chain with
  | [] => []
  | iter :: next =>
      (if dataFree =? NULL then [] else [EvDataFree dataFree (e_payload iter)])
      ++ freeChain dataFree next
  end.

Fixpoint freeBuckets (dataFree : Z) (buckets : list (list virHashEntry)) : list event :=
  match buckets with
  | [] => []
  | chain :: rest => freeChain dataFree chain ++ freeBuckets dataFree rest
  end.

(** [virHashFree]: the destructor calls made; the table is gone after
    the call. *)
Definition virHashFree (table : option virHashTable) : list event :=
  match table with
  | None => []
  | Some t => freeBuckets (ht_dataFree t) (ht_table t)
  end.

(** A [virHashSearcher] that ignores its opaque pointer and answers with
    a test on the payload and the name. *)
Definition searcherOf (p : Z -> string -> bool) : virHashSearcher unit :=
  fun payload name opaque => (if p payload name then 1 else 0, opaque).

Definition accepts (p : Z -> string -> bool) (entry : virHashEntry) : bool :=
  p (e_payload entry) (e_name entry).

(** The destructor calls for a list of entries, in order. *)
Definition freeEvents (dataFree : Z) (entries : list virHashEntry) : list event :=
  if dataFree =? NULL then [] else (fun entry => EvDataFree dataFree (e_payload entry)) <$> entries.


(** The finite map from names to payloads that the entries of a table
    make up. *)
Definition tableMap (t : virHashTable) : gmap string Z :=
  list_to_map ((fun entry => (e_name entry, e_payload entry)) <$> virHashEntries t).

(** Operations on a finite map that the table operations are meant to
    implement, and the table operation each stands for. *)
Inductive mapOp :=
| MAdd (name : string) (userdata : Z)
| MUpdate (name : string) (userdata : Z)
| MRemove (name : string)
| MSteal (name : string)
| MRemoveAll.

Definition mapApply (m : gmap string Z) (o : mapOp) : gmap string Z :=
  match o with
  | MAdd name userdata =>
      match m !! name with
      | Some _ => m
      | None => <[name := userdata]> m
      end
  | MUpdate name userdata => <[name := userdata]> m
  | MRemove name => delete name m
  | MSteal name =>
      match m !! name with
      | Some payload => if payload =? NULL then m else delete name m
      | None => m
      end
  | MRemoveAll => ∅
  end.

Definition tableOp (o : mapOp) : op :=
  match o with
  | MAdd name userdata => OpAdd (Some name) userdata
  | MUpdate name userdata => OpUpdate (Some name) userdata
  | MRemove name => OpRemove (Some name)
  | MSteal name => OpSteal (Some name)
  | MRemoveAll => OpRemoveAll
  end.

(** ** Strings and chains *)

Lemma compare_refl (a : string) : String.compare a a = Eq.
Proof.
  induction a as [|c a IH]; simpl; [done|].
  unfold Ascii.compare. by rewrite N.compare_refl.
Qed.

Lemma strcmp_eq (a b : string) : strcmp a b = 0 <-> a = b.
Proof.
  unfold strcmp. split.
  - destruct (String.compare a b) eqn:E; try done.
    intros _. by apply String.compare_eq_iff.
  - intros ->. by rewrite compare_refl.
Qed.

Lemma STREQ_true (a b : string) : STREQ a b = true <-> a = b.
Proof. unfold STREQ. rewrite Z.eqb_eq. apply strcmp_eq. Qed.

Lemma STREQ_false (a b : string) : STREQ a b = false <-> a <> b.
Proof. rewrite <- STREQ_true. destruct (STREQ a b); split; congruence. Qed.

Lemma STREQ_refl (a : string) : STREQ a a = true.
Proof. by apply STREQ_true. Qed.

Lemma chainFind_Some name chain i entry :
  chainFind name chain = Some (i, entry) ->
  chain !! i = Some entry /\ e_name entry = name.
Proof.
  revert i. induction chain as [|e rest IH]; intros i; simpl; [done|].
  destruct (STREQ (e_name e) name) eqn:E.
  - intros [= <- <-]. split; [done|by apply STREQ_true].
  - destruct (chainFind name rest) as [[j e']|]; [|done].
    intros [= <- <-]. by apply IH.
Qed.

Lemma chainFind_None name chain :
  chainFind name chain = None <-> name ∉ e_name <$> chain.
Proof.
  induction chain as [|e rest IH]; simpl.
  - split; [intros _; apply not_elem_of_nil|done].
  - rewrite not_elem_of_cons. destruct (STREQ (e_name e) name) eqn:E.
    + apply STREQ_true in E. split; [done|]. intros [? _]. congruence.
    + apply STREQ_false in E. destruct (chainFind name rest) as [[j e']|].
      * split; [done|]. intros [_ H]. by apply IH in H.
      * split; [|done]. intros _. split; [congruence|by apply IH].
Qed.

(** The first match is the only one in a chain without repeated names. *)
Lemma chainFind_elem name chain entry :
  NoDup (e_name <$> chain) -> entry ∈ chain -> e_name entry = name ->
  exists i, chainFind name chain = Some (i, entry).
Proof.
  induction chain as [|e rest IH]; simpl; intros ND Hin Hn.
  - by apply elem_of_nil in Hin.
  - apply NoDup_cons in ND as [Hnotin ND].
    apply elem_of_cons in Hin as [->|Hin].
    + rewrite <- Hn, STREQ_refl. eauto.
    + destruct (STREQ (e_name e) name) eqn:E.
      * apply STREQ_true in E. exfalso. apply Hnotin. rewrite E, <- Hn.
        by apply list_elem_of_fmap_2.
      * destruct (IH ND Hin Hn) as [i ->]. eauto.
Qed.

Lemma chainFind_is_Some name chain :
  name ∈ e_name <$> chain -> is_Some (chainFind name chain).
Proof.
  intros H. destruct (chainFind name chain) eqn:E; [eauto|].
  by apply chainFind_None in E.
Qed.

(** ** Buckets *)

Lemma computeKey_range t name :
  0 < ht_size t -> 0 <= virHashComputeKey t name < ht_size t.
Proof. intros H. unfold virHashComputeKey. by apply Z.mod_pos_bound. Qed.

Lemma bucket_lookup t key chain :
  ht_table t !! Z.to_nat key = Some chain -> bucket t key = chain.
Proof. unfold bucket. by intros ->. Qed.

Lemma bucket_elem t key entry :
  entry ∈ bucket t key -> entry ∈ virHashEntries t.
Proof.
  unfold bucket, virHashEntries. intros H.
  destruct (ht_table t !! Z.to_nat key) as [chain|] eqn:E; simpl in H.
  - apply list_elem_of_join. exists chain. split; [done|].
    by eapply list_elem_of_lookup_2.
  - by apply elem_of_nil in H.
Qed.

Lemma lookup_bucket t key :
  length (ht_table t) = Z.to_nat (ht_size t) -> 0 <= key < ht_size t ->
  ht_table t !! Z.to_nat key = Some (bucket t key).
Proof.
  intros Hlen Hk. unfold bucket.
  destruct (ht_table t !! Z.to_nat key) eqn:E; [done|].
  apply lookup_ge_None in E. lia.
Qed.

(** The entries of a table around one of its buckets. *)
Lemma entries_split t key :
  length (ht_table t) = Z.to_nat (ht_size t) -> 0 <= key < ht_size t ->
  virHashEntries t =
    mjoin (take (Z.to_nat key) (ht_table t)) ++ bucket t key
    ++ mjoin (drop (S (Z.to_nat key)) (ht_table t)).
Proof.
  intros Hlen Hk. unfold virHashEntries.
  rewrite <- (take_drop_middle _ _ _ (lookup_bucket t key Hlen Hk)) at 1.
  by rewrite join_app.
Qed.

Lemma entries_set_bucket t key chain :
  length (ht_table t) = Z.to_nat (ht_size t) -> 0 <= key < ht_size t ->
  virHashEntries (set_bucket t key chain) =
    mjoin (take (Z.to_nat key) (ht_table t)) ++ chain
    ++ mjoin (drop (S (Z.to_nat key)) (ht_table t)).
Proof.
  intros Hlen Hk. unfold virHashEntries, set_bucket. simpl.
  rewrite insert_take_drop by lia. by rewrite join_app.
Qed.

(** ** The invariant *)

Lemma chainsPlaced_spec t i buckets :
  chainsPlaced t i buckets = true <->
  forall j chain entry, buckets !! j = Some chain -> entry ∈ chain ->
    virHashComputeKey t (e_name entry) = i + Z.of_nat j.
Proof.
  revert i. induction buckets as [|c rest IH]; intros i; simpl.
  - split; [|done]. intros _ j chain entry H. by rewrite lookup_nil in H.
  - rewrite andb_true_iff, forallb_forall, IH. split.
    + intros [H1 H2] [|j] chain entry; simpl.
      * intros [= <-] Hin. apply list_elem_of_In, H1 in Hin. lia.
      * intros Hl Hin. rewrite (H2 j chain entry Hl Hin). lia.
    + intros H. split.
      * intros entry Hin. apply list_elem_of_In in Hin.
        specialize (H 0%nat c entry eq_refl Hin). lia.
      * intros j chain entry Hl Hin.
        rewrite (H (S j) chain entry Hl Hin). lia.
Qed.

Lemma wf_wellFormed t : wf t <-> wellFormed t.
Proof.
  unfold wf, wfb. rewrite !andb_true_iff, Nat.eqb_eq, !Z.ltb_lt, Z.leb_le, Z.eqb_eq,
    bool_decide_eq_true, chainsPlaced_spec.
  split.
  - intros [[[[[[? ?] ?] Hp] ?] ?] ?]. by constructor.
  - intros [? [? ?] Hp ? ? ?]. by repeat split.
Qed.

Lemma wellFormed_new randomBits dataFree : wellFormed (virHashNew randomBits dataFree).
Proof. by apply wf_wellFormed. Qed.

Lemma computeKey_set_bucket t key chain name :
  virHashComputeKey (set_bucket t key chain) name = virHashComputeKey t name.
Proof. done. Qed.

(** Membership in the chain the name hashes to and in the table agree. *)
Lemma elem_bucket t entry :
  wellFormed t -> entry ∈ virHashEntries t ->
  entry ∈ bucket t (virHashComputeKey t (e_name entry)).
Proof.
  intros W Hin. apply list_elem_of_join in Hin as (chain & Hin & Hc).
  apply list_elem_of_lookup in Hc as [i Hi].
  rewrite (wf_placed t W i chain entry Hi Hin).
  unfold bucket. by rewrite Nat2Z.id, Hi.
Qed.

Lemma bucket_placed t key entry :
  wellFormed t -> 0 <= key < ht_size t -> entry ∈ bucket t key ->
  virHashComputeKey t (e_name entry) = key.
Proof.
  intros W Hk Hin.
  rewrite (wf_placed t W (Z.to_nat key) (bucket t key) entry); [lia| |done].
  apply lookup_bucket; [apply (wf_length t W)|done].
Qed.

Lemma NoDup_bucket t key :
  wellFormed t -> NoDup (e_name <$> bucket t key).
Proof.
  intros W. unfold bucket.
  destruct (ht_table t !! Z.to_nat key) as [chain|] eqn:E; simpl; [|constructor].
  pose proof (wf_unique t W) as ND. unfold virHashKeys, virHashEntries in ND.
  rewrite <- (take_drop_middle _ _ _ E), join_app in ND. simpl in ND.
  rewrite !fmap_app in ND.
  apply NoDup_app in ND as (_ & _ & ND). by apply NoDup_app in ND as (ND & _ & _).
Qed.

Lemma inj_name l (e1 e2 : virHashEntry) :
  NoDup (e_name <$> l) -> e1 ∈ l -> e2 ∈ l -> e_name e1 = e_name e2 -> e1 = e2.
Proof.
  induction l as [|x l IH]; simpl; intros ND H1 H2 Hn.
  - by apply elem_of_nil in H1.
  - apply NoDup_cons in ND as [Hx ND].
    apply elem_of_cons in H1 as [->|H1]; apply elem_of_cons in H2 as [->|H2]; try done.
    + exfalso. apply Hx. rewrite Hn. by apply list_elem_of_fmap_2.
    + exfalso. apply Hx. rewrite <- Hn. by apply list_elem_of_fmap_2.
    + by apply IH.
Qed.

(** [virHashGetEntry] finds exactly the entries of the table. *)
Lemma getEntry_elem t name entry :
  virHashGetEntry (Some t) (Some name) = Some entry ->
  entry ∈ virHashEntries t /\ e_name entry = name.
Proof.
  simpl. destruct (chainFind name _) as [[i e]|] eqn:E; simpl; [|done].
  intros [= <-]. apply chainFind_Some in E as [Hl Hn]. split; [|done].
  eapply bucket_elem, list_elem_of_lookup_2, Hl.
Qed.

Lemma getEntry_Some t entry :
  wellFormed t -> entry ∈ virHashEntries t ->
  virHashGetEntry (Some t) (Some (e_name entry)) = Some entry.
Proof.
  intros W Hin. simpl.
  destruct (chainFind_elem (e_name entry) _ entry (NoDup_bucket t _ W)
              (elem_bucket t entry W Hin) eq_refl) as [i ->].
  done.
Qed.

Lemma getEntry_None t name :
  wellFormed t ->
  virHashGetEntry (Some t) (Some name) = None <-> name ∉ virHashKeys t.
Proof.
  intros W. split.
  - intros Hn Hin. apply list_elem_of_fmap in Hin as (entry & -> & Hin).
    by rewrite (getEntry_Some t entry W Hin) in Hn.
  - intros Hn. destruct (virHashGetEntry (Some t) (Some name)) as [entry|] eqn:E; [|done].
    apply getEntry_elem in E as [Hin <-]. exfalso. apply Hn.
    by apply list_elem_of_fmap_2.
Qed.

Lemma chainFind_None_keys t name :
  wellFormed t ->
  chainFind name (bucket t (virHashComputeKey t name)) = None <-> name ∉ virHashKeys t.
Proof.
  intros W. rewrite <- (getEntry_None t name W). simpl.
  destruct (chainFind name _); simpl; split; done.
Qed.

(** Replacing the chain of one bucket. *)
Lemma wellFormed_set_bucket t key chain n :
  wellFormed t -> 0 <= key < ht_size t ->
  (forall entry, entry ∈ chain -> virHashComputeKey t (e_name entry) = key) ->
  NoDup (virHashKeys (set_bucket t key chain)) ->
  n = Z.of_nat (length (virHashEntries (set_bucket t key chain))) ->
  n < 2 ^ 63 ->
  wellFormed (set_nbElems (set_bucket t key chain) n).
Proof.
  intros W Hk Hc ND Hn Hr. constructor; simpl; try done.
  - rewrite length_insert. apply (wf_length t W).
  - apply (wf_size t W).
  - intros i c entry Hl Hin.
    change (virHashComputeKey t (e_name entry) = Z.of_nat i).
    destruct (decide (i = Z.to_nat key)) as [->|Hne].
    + rewrite list_lookup_insert_eq in Hl by (rewrite (wf_length t W); lia).
      injection Hl as <-. rewrite (Hc entry Hin). lia.
    + rewrite list_lookup_insert_ne in Hl by done.
      by apply (wf_placed t W i c).
Qed.

(** ** Growing *)

Lemma wellFormed_placed t : wellFormed t -> placed t.
Proof. intros [? ? ? _ _ _]. by constructor. Qed.

Lemma placed_wellFormed t :
  placed t -> NoDup (virHashKeys t) ->
  ht_nbElems t = Z.of_nat (length (virHashEntries t)) ->
  ht_nbElems t < 2 ^ 63 -> wellFormed t.
Proof. intros [? ? ?] ? ? ?. by constructor. Qed.

Lemma rechain_fields t entry :
  ht_seed (rechain t entry) = ht_seed t /\ ht_size (rechain t entry) = ht_size t /\
  ht_nbElems (rechain t entry) = ht_nbElems t /\ ht_dataFree (rechain t entry) = ht_dataFree t.
Proof. done. Qed.

Lemma rechain_placed t entry : placed t -> placed (rechain t entry).
Proof.
  intros [Hlen Hsz Hpl].
  pose proof (computeKey_range t (e_name entry) (proj1 Hsz)) as Hk.
  constructor; simpl; try done.
  - by rewrite length_insert.
  - intros i c e Hl Hin. change (virHashComputeKey t (e_name e) = Z.of_nat i).
    destruct (decide (i = Z.to_nat (virHashComputeKey t (e_name entry)))) as [->|Hne].
    + rewrite list_lookup_insert_eq in Hl by lia. injection Hl as <-.
      apply elem_of_cons in Hin as [->|Hin]; [lia|].
      apply (Hpl _ (bucket t (virHashComputeKey t (e_name entry)))); [|done].
      by apply lookup_bucket.
    + rewrite list_lookup_insert_ne in Hl by done. by apply (Hpl i c).
Qed.

Lemma rechain_entries t entry :
  placed t -> virHashEntries (rechain t entry) ≡ₚ entry :: virHashEntries t.
Proof.
  intros [Hlen Hsz Hpl].
  pose proof (computeKey_range t (e_name entry) (proj1 Hsz)) as Hk.
  unfold rechain. rewrite entries_set_bucket by done.
  rewrite (entries_split t (virHashComputeKey t (e_name entry))) by done.
  simpl. symmetry. apply Permutation_middle.
Qed.

Lemma fold_rechain entries t :
  placed t ->
  let t' := fold_left rechain entries t in
  placed t' /\ virHashEntries t' ≡ₚ entries ++ virHashEntries t /\
  ht_seed t' = ht_seed t /\ ht_size t' = ht_size t /\
  ht_nbElems t' = ht_nbElems t /\ ht_dataFree t' = ht_dataFree t.
Proof.
  revert t. induction entries as [|e es IH]; intros t P; simpl; [done|].
  destruct (IH (rechain t e) (rechain_placed t e P)) as (P' & Hperm & Hs & Hz & Hn & Hd).
  split; [done|]. split; [|done].
  rewrite Hperm, (rechain_entries t e P). symmetry. apply Permutation_middle.
Qed.

Lemma fold_chains (buckets : list (list virHashEntry)) t :
  fold_left (fun acc chain => fold_left rechain chain acc) buckets t
  = fold_left rechain (mjoin buckets) t.
Proof.
  revert t. induction buckets as [|c rest IH]; intros t; simpl; [done|].
  by rewrite fold_left_app, IH.
Qed.

Lemma join_replicate_nil (n : nat) : mjoin (replicate n ([] : list virHashEntry)) = [].
Proof. induction n; simpl; [done|]. done. Qed.

Lemma grow_rejected t size :
  size < 8 \/ 8 * 2048 < size -> virHashGrow (Some t) size = (-1, Some t).
Proof.
  intros H. unfold virHashGrow.
  destruct (size <? 8) eqn:E1; [done|]. apply Z.ltb_ge in E1.
  destruct (size >? 8 * 2048) eqn:E2; [done|]. lia.
Qed.

Lemma grow_accepted t size :
  8 <= size <= 8 * 2048 ->
  exists t', virHashGrow (Some t) size = (0, Some t') /\
    placed t' /\ virHashEntries t' ≡ₚ virHashEntries t /\
    ht_seed t' = ht_seed t /\ ht_size t' = size /\
    ht_nbElems t' = ht_nbElems t /\ ht_dataFree t' = ht_dataFree t.
Proof.
  intros H. unfold virHashGrow.
  destruct (size <? 8) eqn:E1; [apply Z.ltb_lt in E1; lia|].
  destruct (size >? 8 * 2048) eqn:E2; [lia|].
  eexists. split; [done|]. rewrite fold_chains.
  set (t0 := mkTable _ _ _ _ _).
  assert (P0 : placed t0).
  { constructor; simpl; [by rewrite length_replicate|lia|].
    intros i c e Hl Hin. apply lookup_replicate in Hl as [-> _].
    by apply elem_of_nil in Hin. }
  destruct (fold_rechain (mjoin (ht_table t)) t0 P0) as (P' & Hperm & Hs & Hz & Hn & Hd).
  split; [done|]. split; [|done].
  rewrite Hperm. unfold virHashEntries, t0. simpl.
  by rewrite join_replicate_nil, app_nil_r.
Qed.

Lemma grow_wellFormed t size :
  wellFormed t -> 8 <= size <= 8 * 2048 ->
  exists t', virHashGrow (Some t) size = (0, Some t') /\
    wellFormed t' /\ virHashEntries t' ≡ₚ virHashEntries t /\
    ht_seed t' = ht_seed t /\ ht_size t' = size /\
    ht_nbElems t' = ht_nbElems t /\ ht_dataFree t' = ht_dataFree t.
Proof.
  intros W H. destruct (grow_accepted t size H) as (t' & E & P & Hperm & Hf).
  exists t'. split; [done|]. split; [|done].
  destruct Hf as (Hs & Hz & Hn & Hd).
  apply placed_wellFormed; [done| | |].
  - unfold virHashKeys. rewrite Hperm. apply (wf_unique t W).
  - rewrite Hn, Hperm. apply (wf_count t W).
  - rewrite Hn. apply (wf_repr t W).
Qed.

(** Lookups in two well-formed tables with the same entries agree. *)
Lemma getEntry_perm t t' name :
  wellFormed t -> wellFormed t' -> virHashEntries t' ≡ₚ virHashEntries t ->
  virHashGetEntry (Some t') (Some name) = virHashGetEntry (Some t) (Some name).
Proof.
  intros W W' Hperm.
  destruct (virHashGetEntry (Some t) (Some name)) as [entry|] eqn:E.
  - apply getEntry_elem in E as [Hin <-]. apply getEntry_Some; [done|].
    by rewrite Hperm.
  - apply getEntry_None; [done|]. apply getEntry_None in E; [|done].
    unfold virHashKeys. by rewrite Hperm.
Qed.

(** ** Insertion, update and removal on a well-formed table *)

Lemma wrap_size_t_small z : 0 <= z < 2 ^ 64 -> wrap_size_t z = z.
Proof. intros H. unfold wrap_size_t. by apply Z.mod_small. Qed.

Lemma nbElems_nonneg t : wellFormed t -> 0 <= ht_nbElems t.
Proof. intros W. rewrite (wf_count t W). lia. Qed.

Lemma appended_entries t name userdata :
  wellFormed t ->
  virHashEntries (appended t name userdata) ≡ₚ mkEntry name userdata :: virHashEntries t.
Proof.
  intros W. pose proof (computeKey_range t name (proj1 (wf_size t W))) as Hk.
  unfold appended.
  change (virHashEntries (set_nbElems ?x _)) with (virHashEntries x).
  rewrite entries_set_bucket by (done || apply (wf_length t W)).
  rewrite (entries_split t (virHashComputeKey t name)) by (done || apply (wf_length t W)).
  rewrite <- !app_assoc. simpl. rewrite !app_assoc. symmetry. apply Permutation_middle.
Qed.

Lemma appended_wellFormed t name userdata :
  wellFormed t -> name ∉ virHashKeys t -> ht_nbElems t < 2 ^ 63 - 1 ->
  wellFormed (appended t name userdata) /\
  ht_nbElems (appended t name userdata) = ht_nbElems t + 1.
Proof.
  intros W Hn Hb. pose proof (computeKey_range t name (proj1 (wf_size t W))) as Hk.
  pose proof (nbElems_nonneg t W) as H0.
  assert (Hw : wrap_size_t (ht_nbElems t + 1) = ht_nbElems t + 1)
    by (apply wrap_size_t_small; lia).
  split; [|done].
  pose proof (appended_entries t name userdata W) as Hperm.
  unfold appended in *.
  change (virHashEntries (set_nbElems ?x _)) with (virHashEntries x) in Hperm.
  apply wellFormed_set_bucket; try done.
  - intros entry Hin. apply elem_of_app in Hin as [Hin|Hin].
    + by apply (bucket_placed t _ entry W Hk).
    + apply list_elem_of_singleton in Hin as ->. done.
  - unfold virHashKeys. rewrite Hperm. simpl. apply NoDup_cons. split; [done|].
    apply (wf_unique t W).
  - rewrite Hw, Hperm. simpl. rewrite (wf_count t W). lia.
  - rewrite Hw. lia.
Qed.

Lemma addOrUpdate_absent_eq t name userdata is_update :
  chainFind name (bucket t (virHashComputeKey t name)) = None ->
  virHashAddOrUpdateEntry (Some t) (Some name) userdata is_update =
    if Z.of_nat (length (bucket t (virHashComputeKey t name))) >? MAX_HASH_LEN then
      (0, snd (virHashGrow (Some (appended t name userdata))
                 (wrap_size_t (MAX_HASH_LEN * ht_size t))), [])
    else (0, Some (appended t name userdata), []).
Proof. intros H. unfold virHashAddOrUpdateEntry. by rewrite H. Qed.

Lemma addOrUpdate_absent t name userdata is_update :
  wellFormed t -> name ∉ virHashKeys t -> ht_nbElems t < 2 ^ 63 - 1 ->
  exists t', virHashAddOrUpdateEntry (Some t) (Some name) userdata is_update = (0, Some t', []) /\
    wellFormed t' /\
    virHashEntries t' ≡ₚ mkEntry name userdata :: virHashEntries t /\
    ht_nbElems t' = ht_nbElems t + 1 /\
    ht_dataFree t' = ht_dataFree t /\ ht_seed t' = ht_seed t.
Proof.
  intros W Hn Hb.
  rewrite addOrUpdate_absent_eq by by apply chainFind_None_keys.
  destruct (appended_wellFormed t name userdata W Hn Hb) as [W1 Hc1].
  pose proof (appended_entries t name userdata W) as Hperm.
  destruct (_ >? MAX_HASH_LEN).
  - pose proof (wf_size t W) as Hsz.
    rewrite wrap_size_t_small by (unfold MAX_HASH_LEN; lia).
    destruct (decide (MAX_HASH_LEN * ht_size t <= 8 * 2048)) as [Hle|Hgt].
    + destruct (grow_wellFormed (appended t name userdata) (MAX_HASH_LEN * ht_size t) W1)
        as (t' & -> & W' & Hp' & Hs' & _ & Hn' & Hd'); [unfold MAX_HASH_LEN in *; lia|].
      exists t'. simpl. split_and!; try done.
      * by rewrite Hp'.
      * by rewrite Hn'.
    + rewrite grow_rejected by (unfold MAX_HASH_LEN in *; lia).
      by exists (appended t name userdata).
  - by exists (appended t name userdata).
Qed.

Lemma overwritten_names t name i entry userdata :
  bucket t (virHashComputeKey t name) !! i = Some entry -> e_name entry = name ->
  e_name <$> <[i := mkEntry name userdata]> (bucket t (virHashComputeKey t name))
  = e_name <$> bucket t (virHashComputeKey t name).
Proof.
  intros Hl Hn. rewrite list_fmap_insert. simpl. apply list_insert_id.
  by rewrite list_lookup_fmap, Hl, <- Hn.
Qed.

Lemma overwritten_keys t name i entry userdata :
  wellFormed t ->
  bucket t (virHashComputeKey t name) !! i = Some entry -> e_name entry = name ->
  virHashKeys (overwritten t name i userdata) = virHashKeys t.
Proof.
  intros W Hl Hn. pose proof (computeKey_range t name (proj1 (wf_size t W))) as Hk.
  unfold virHashKeys, overwritten.
  rewrite entries_set_bucket by (done || apply (wf_length t W)).
  rewrite (entries_split t (virHashComputeKey t name)) by (done || apply (wf_length t W)).
  rewrite !fmap_app. by rewrite (overwritten_names t name i entry userdata Hl Hn).
Qed.

Lemma overwritten_wellFormed t name i entry userdata :
  wellFormed t ->
  bucket t (virHashComputeKey t name) !! i = Some entry -> e_name entry = name ->
  wellFormed (overwritten t name i userdata).
Proof.
  intros W Hl Hn. pose proof (computeKey_range t name (proj1 (wf_size t W))) as Hk.
  pose proof (overwritten_keys t name i entry userdata W Hl Hn) as Hkeys.
  change (overwritten t name i userdata) with
    (set_nbElems (overwritten t name i userdata) (ht_nbElems t)).
  unfold overwritten in *. apply wellFormed_set_bucket; try done.
  - intros e Hin. apply list_elem_of_lookup in Hin as [j Hj].
    destruct (decide (j = i)) as [->|Hne].
    + rewrite list_lookup_insert_eq in Hj by (by eapply lookup_lt_Some).
      by injection Hj as <-.
    + rewrite list_lookup_insert_ne in Hj by done.
      apply list_elem_of_lookup_2 in Hj.
      by apply (bucket_placed t _ e W Hk).
  - rewrite Hkeys. apply (wf_unique t W).
  - rewrite (wf_count t W). f_equal.
    rewrite <- !(length_fmap e_name). fold (virHashKeys t). by rewrite <- Hkeys.
  - apply (wf_repr t W).
Qed.

Lemma unlinked_entries t name i entry :
  wellFormed t ->
  bucket t (virHashComputeKey t name) !! i = Some entry ->
  virHashEntries t ≡ₚ entry :: virHashEntries (unlinked t name i).
Proof.
  intros W Hl. pose proof (computeKey_range t name (proj1 (wf_size t W))) as Hk.
  unfold unlinked.
  change (virHashEntries (set_nbElems ?x _)) with (virHashEntries x).
  rewrite entries_set_bucket by (done || apply (wf_length t W)).
  rewrite (entries_split t (virHashComputeKey t name)) by (done || apply (wf_length t W)).
  rewrite (delete_Permutation _ _ _ Hl) at 1. simpl.
  symmetry. apply Permutation_middle.
Qed.

Lemma unlinked_wellFormed t name i entry :
  wellFormed t ->
  bucket t (virHashComputeKey t name) !! i = Some entry ->
  wellFormed (unlinked t name i) /\
  ht_nbElems (unlinked t name i) = ht_nbElems t - 1 /\
  e_name entry ∉ virHashKeys (unlinked t name i).
Proof.
  intros W Hl. pose proof (computeKey_range t name (proj1 (wf_size t W))) as Hk.
  pose proof (unlinked_entries t name i entry W Hl) as Hperm.
  pose proof (wf_unique t W) as ND. unfold virHashKeys in ND.
  rewrite Hperm in ND. simpl in ND. apply NoDup_cons in ND as [Hnotin ND].
  pose proof (wf_count t W) as Hc. rewrite Hperm in Hc. simpl in Hc.
  pose proof (wf_repr t W) as Hr.
  assert (Hw : wrap_size_t (ht_nbElems t - 1) = ht_nbElems t - 1)
    by (apply wrap_size_t_small; lia).
  split; [|done].
  unfold unlinked in *.
  change (virHashEntries (set_nbElems ?x _)) with (virHashEntries x) in *.
  apply wellFormed_set_bucket; try done.
  - intros e Hin.
    assert (Hin' : e ∈ bucket t (virHashComputeKey t name)).
    { by eapply list_elem_of_delete_inv. }
    by apply (bucket_placed t _ e W Hk).
  - rewrite Hw. lia.
  - rewrite Hw. lia.
Qed.

(** ** Lookups before and after a mutation *)

Lemma hasEntry_true t name :
  virHashHasEntry (Some t) (Some name) = true <->
  exists i entry, chainFind name (bucket t (virHashComputeKey t name)) = Some (i, entry).
Proof.
  unfold virHashHasEntry, virHashGetEntry.
  destruct (chainFind name _) as [[i e]|]; simpl; split; try done; eauto.
  by intros (? & ? & ?).
Qed.

Lemma hasEntry_false t name :
  virHashHasEntry (Some t) (Some name) = false <->
  chainFind name (bucket t (virHashComputeKey t name)) = None.
Proof.
  unfold virHashHasEntry, virHashGetEntry.
  destruct (chainFind name _) as [[i e]|]; simpl; split; done.
Qed.

Lemma hasEntry_keys t name :
  wellFormed t -> virHashHasEntry (Some t) (Some name) = true <-> name ∈ virHashKeys t.
Proof.
  intros W. pose proof (getEntry_None t name W) as H. unfold virHashHasEntry.
  destruct (virHashGetEntry (Some t) (Some name)); split; try done.
  - intros _. destruct (decide (name ∈ virHashKeys t)) as [|Hn]; [done|].
    by apply H in Hn.
  - intros Hin. by apply H in Hin.
Qed.

Lemma lookup_chainFind t name i entry :
  chainFind name (bucket t (virHashComputeKey t name)) = Some (i, entry) ->
  virHashLookup (Some t) (Some name) = e_payload entry.
Proof. intros H. unfold virHashLookup, virHashGetEntry. by rewrite H. Qed.

Lemma chainFind_insert name chain i entry userdata :
  chainFind name chain = Some (i, entry) ->
  chainFind name (<[i := mkEntry name userdata]> chain) = Some (i, mkEntry name userdata).
Proof.
  revert i. induction chain as [|e rest IH]; intros i; simpl; [done|].
  destruct (STREQ (e_name e) name) eqn:E.
  - intros [= <- <-]. simpl. by rewrite STREQ_refl.
  - destruct (chainFind name rest) as [[j e']|] eqn:E'; [|done].
    intros [= <- <-]. simpl. rewrite E. by rewrite (IH j eq_refl).
Qed.

Lemma bucket_set_bucket t key chain :
  (Z.to_nat key < length (ht_table t))%nat -> bucket (set_bucket t key chain) key = chain.
Proof. intros H. unfold bucket, set_bucket. simpl. by rewrite list_lookup_insert_eq. Qed.

Lemma chainFind_in_range t key name i entry :
  chainFind name (bucket t key) = Some (i, entry) ->
  (Z.to_nat key < length (ht_table t))%nat.
Proof.
  unfold bucket. destruct (ht_table t !! Z.to_nat key) eqn:E; simpl; [|done].
  intros _. by eapply lookup_lt_Some.
Qed.

Lemma size_wellFormed t :
  wellFormed t -> virHashSize (Some t) = ht_nbElems t.
Proof.
  intros W. pose proof (wf_repr t W) as Hb. pose proof (nbElems_nonneg t W). unfold virHashSize, to_ssize_t.
  rewrite wrap_size_t_small by lia.
  destruct (ht_nbElems t <? 2 ^ 63) eqn:E; [done|]. apply Z.ltb_ge in E. lia.
Qed.

(** ** Adding a key that is present *)

(** C4. [virHashAddEntry] on a table that holds the key fails: it returns
    -1 after reporting the duplicate key, leaves the table as it was (so
    the payload stored for the key and the element count are the
    original ones) and does not call the destructor. *)
Theorem add_existing_key_fails (t : virHashTable) (name : string) (userdata : Z) :
  virHashHasEntry (Some t) (Some name) = true ->
  virHashAddEntry (Some t) (Some name) userdata = (-1, Some t, [EvReportError name]) /\
  (forall ret table' evs,
     virHashAddEntry (Some t) (Some name) userdata = (ret, table', evs) ->
     ret = -1 /\ table' = Some t /\
     (forall fn payload, EvDataFree fn payload ∉ evs) /\
     virHashLookup table' (Some name) = virHashLookup (Some t) (Some name) /\
     virHashSize table' = virHashSize (Some t)).
Proof.
  intros H. apply hasEntry_true in H as (i & entry & H).
  assert (E : virHashAddEntry (Some t) (Some name) userdata
              = (-1, Some t, [EvReportError name])).
  { unfold virHashAddEntry, virHashAddOrUpdateEntry. by rewrite H. }
  split; [done|]. intros ret table' evs. rewrite E. intros [= <- <- <-].
  split_and!; try done.
  intros fn payload Hin. by apply list_elem_of_singleton in Hin.
Qed.

(** ** Updating a key that is present *)

(** C5. [virHashUpdateEntry] on a table that holds the key succeeds. The
    destructor, if one is registered, is called once, on the payload the
    key had; the entry keeps its position in its chain and its name, no
    other entry changes, the element count is unchanged, and a lookup of
    the key then returns the new payload. *)
Theorem update_existing_key (t : virHashTable) (name : string) (userdata : Z) :
  virHashHasEntry (Some t) (Some name) = true ->
  exists i entry,
    let key := virHashComputeKey t name in
    let t' := overwritten t name i userdata in
    bucket t key !! i = Some entry /\ e_name entry = name /\
    virHashLookup (Some t) (Some name) = e_payload entry /\
    virHashUpdateEntry (Some t) (Some name) userdata =
      (0, Some t',
       if ht_dataFree t =? NULL then []
       else [EvDataFree (ht_dataFree t) (e_payload entry)]) /\
    bucket t' key !! i = Some (mkEntry name userdata) /\
    e_name <$> bucket t' key = e_name <$> bucket t key /\
    (forall j, j <> i -> bucket t' key !! j = bucket t key !! j) /\
    (forall k, Z.to_nat k <> Z.to_nat key -> bucket t' k = bucket t k) /\
    ht_nbElems t' = ht_nbElems t /\
    virHashSize (Some t') = virHashSize (Some t) /\
    virHashLookup (Some t') (Some name) = userdata.
Proof.
  intros H. apply hasEntry_true in H as (i & entry & H).
  exists i, entry. simpl.
  pose proof (chainFind_Some _ _ _ _ H) as [Hl Hn].
  pose proof (chainFind_in_range _ _ _ _ _ H) as Hr.
  assert (Hb : bucket (overwritten t name i userdata) (virHashComputeKey t name)
               = <[i := mkEntry name userdata]> (bucket t (virHashComputeKey t name))).
  { unfold overwritten. by rewrite bucket_set_bucket. }
  split_and!; try done.
  - by apply (lookup_chainFind t name i).
  - unfold virHashUpdateEntry, virHashAddOrUpdateEntry. rewrite H.
    unfold overwritten. by rewrite Hn.
  - rewrite Hb. apply list_lookup_insert_eq. by eapply lookup_lt_Some.
  - rewrite Hb. by apply (overwritten_names t name i entry).
  - intros j Hj. rewrite Hb. by apply list_lookup_insert_ne.
  - intros k Hk. unfold bucket, overwritten, set_bucket. simpl.
    by rewrite list_lookup_insert_ne.
  - unfold virHashLookup, virHashGetEntry.
    change (virHashComputeKey (overwritten t name i userdata) name)
      with (virHashComputeKey t name).
    rewrite Hb. by rewrite (chainFind_insert name _ i entry userdata H).
Qed.

(** ** Removing *)

Lemma remove_present_eq t name i entry :
  chainFind name (bucket t (virHashComputeKey t name)) = Some (i, entry) ->
  virHashRemoveEntry (Some t) (Some name) =
    (0, Some (unlinked t name i),
     if ht_dataFree t =? NULL then [] else [EvDataFree (ht_dataFree t) (e_payload entry)]).
Proof. intros H. unfold virHashRemoveEntry. by rewrite H. Qed.

Lemma remove_absent_eq t name :
  chainFind name (bucket t (virHashComputeKey t name)) = None ->
  virHashRemoveEntry (Some t) (Some name) = (-1, Some t, []).
Proof. intros H. unfold virHashRemoveEntry. by rewrite H. Qed.

Lemma hasEntry_unlinked t name i entry :
  wellFormed t ->
  chainFind name (bucket t (virHashComputeKey t name)) = Some (i, entry) ->
  virHashHasEntry (Some (unlinked t name i)) (Some name) = false.
Proof.
  intros W H. apply chainFind_Some in H as [Hl Hn].
  destruct (unlinked_wellFormed t name i entry W Hl) as (W' & _ & Hnotin).
  rewrite Hn in Hnotin. apply (getEntry_None _ _ W') in Hnotin.
  unfold virHashHasEntry. by rewrite Hnotin.
Qed.

(** C6. On a well-formed table [virHashRemoveEntry] of a key that is
    present returns 0, calls the destructor (when one is registered) on
    the payload of the entry, unlinks the entry from its chain (the other
    entries stay as they are) and decrements the element count; for a key
    that is absent, a null table or a null name it returns -1, calls
    nothing and leaves the table as it was. *)
Theorem remove_entry_spec (t : virHashTable) (name : string) :
  wf t ->
  (virHashHasEntry (Some t) (Some name) = true ->
   exists i entry,
     let key := virHashComputeKey t name in
     let t' := unlinked t name i in
     bucket t key !! i = Some entry /\ e_name entry = name /\
     virHashLookup (Some t) (Some name) = e_payload entry /\
     virHashRemoveEntry (Some t) (Some name) =
       (0, Some t',
        if ht_dataFree t =? NULL then []
        else [EvDataFree (ht_dataFree t) (e_payload entry)]) /\
     bucket t' key = delete i (bucket t key) /\
     (forall k, Z.to_nat k <> Z.to_nat key -> bucket t' k = bucket t k) /\
     virHashEntries t ≡ₚ entry :: virHashEntries t' /\
     ht_nbElems t' = ht_nbElems t - 1 /\
     virHashHasEntry (Some t') (Some name) = false /\
     wf t') /\
  (virHashHasEntry (Some t) (Some name) = false ->
   virHashRemoveEntry (Some t) (Some name) = (-1, Some t, [])) /\
  virHashRemoveEntry None (Some name) = (-1, None, []) /\
  virHashRemoveEntry (Some t) None = (-1, Some t, []).
Proof.
  intros W. apply wf_wellFormed in W. split_and!; try done.
  - intros H. apply hasEntry_true in H as (i & entry & H).
    exists i, entry. simpl.
    pose proof (chainFind_Some _ _ _ _ H) as [Hl Hn].
    pose proof (chainFind_in_range _ _ _ _ _ H) as Hr.
    destruct (unlinked_wellFormed t name i entry W Hl) as (W' & Hc & _).
    split_and!; try done.
    + by apply (lookup_chainFind t name i).
    + by apply remove_present_eq.
    + unfold unlinked.
      change (bucket (set_nbElems ?x _) ?k) with (bucket x k).
      by rewrite bucket_set_bucket.
    + intros k Hk. unfold bucket, unlinked, set_bucket. simpl.
      by rewrite list_lookup_insert_ne.
    + by apply unlinked_entries.
    + by apply (hasEntry_unlinked t name i entry).
    + by apply wf_wellFormed.
  - intros H. apply hasEntry_false in H. by apply remove_absent_eq.
Qed.

(** ** Stealing *)

(** C10. When the payload stored for a key is null, [virHashSteal]
    returns null without touching the table: the entry is still there,
    the element count is the same and nothing is called. The result does
    not differ from that of stealing a key that is absent. *)
Theorem steal_null_payload (t : virHashTable) (name : string) :
  virHashHasEntry (Some t) (Some name) = true ->
  virHashLookup (Some t) (Some name) = NULL ->
  virHashSteal (Some t) (Some name) = (NULL, Some t, []) /\
  (forall data table' evs,
     virHashSteal (Some t) (Some name) = (data, table', evs) ->
     data = NULL /\ table' = Some t /\
     virHashHasEntry table' (Some name) = true /\
     virHashSize table' = virHashSize (Some t)) /\
  (forall absent, virHashHasEntry (Some t) (Some absent) = false ->
     virHashSteal (Some t) (Some absent) = virHashSteal (Some t) (Some name)).
Proof.
  intros Hh Hl.
  assert (E : virHashSteal (Some t) (Some name) = (NULL, Some t, [])).
  { unfold virHashSteal. by rewrite Hl. }
  split_and!; [done| |].
  - intros data table' evs. rewrite E. by intros [= <- <- <-].
  - intros absent Ha. rewrite E. unfold virHashSteal.
    assert (virHashLookup (Some t) (Some absent) = NULL) as ->; [|done].
    unfold virHashLookup. unfold virHashHasEntry in Ha.
    by destruct (virHashGetEntry (Some t) (Some absent)).
Qed.

Lemma steal_present_eq t name i entry :
  chainFind name (bucket t (virHashComputeKey t name)) = Some (i, entry) ->
  e_payload entry <> NULL ->
  virHashSteal (Some t) (Some name) =
    (e_payload entry, Some (unlinked t name i), []).
Proof.
  intros H Hp. unfold virHashSteal. rewrite (lookup_chainFind t name i entry H).
  destruct (e_payload entry =? NULL) eqn:E; [by apply Z.eqb_eq in E|].
  rewrite (remove_present_eq (set_dataFree t NULL) name i entry) by done.
  simpl. unfold unlinked, set_dataFree, set_nbElems, set_bucket, set_table. simpl.
  by destruct t.
Qed.

(** C7, amended. On a well-formed table, [virHashSteal] of a key whose
    payload is not null returns that payload and takes the entry out of
    the table: the key is absent afterwards, the element count is one
    less, the destructor of the table is the one registered before, and
    no destructor call is made. *)
Theorem steal_present_key (t : virHashTable) (name : string) :
  wf t ->
  virHashLookup (Some t) (Some name) <> NULL ->
  stealTakesEntry t name /\
  exists t',
    virHashSteal (Some t) (Some name) = (virHashLookup (Some t) (Some name), Some t', []) /\
    wf t' /\
    ht_nbElems t' = ht_nbElems t - 1 /\
    ht_dataFree t' = ht_dataFree t /\
    (forall entry, entry ∈ virHashEntries t' <->
                   entry ∈ virHashEntries t /\ e_name entry <> name).
Proof.
  intros W Hl. apply wf_wellFormed in W.
  destruct (chainFind name (bucket t (virHashComputeKey t name))) as [[i entry]|] eqn:E.
  2:{ exfalso. apply Hl. unfold virHashLookup, virHashGetEntry. by rewrite E. }
  pose proof (lookup_chainFind t name i entry E) as Hp. rewrite Hp in *.
  pose proof (steal_present_eq t name i entry E Hl) as Hs.
  pose proof (chainFind_Some _ _ _ _ E) as [Hi Hn].
  destruct (unlinked_wellFormed t name i entry W Hi) as (W' & Hc & Hnotin).
  pose proof (hasEntry_unlinked t name i entry W E) as Hh.
  split.
  - unfold stealTakesEntry. rewrite Hp.
    exists (Some (unlinked t name i)), []. split_and!; try done.
    + unfold virHashLookup. unfold virHashHasEntry in Hh.
      by destruct (virHashGetEntry (Some (unlinked t name i)) (Some name)).
    + intros fn payload Hin. by apply elem_of_nil in Hin.
  - exists (unlinked t name i). split_and!; try done.
    + by apply wf_wellFormed.
    + intros e. pose proof (unlinked_entries t name i entry W Hi) as Hperm.
      rewrite Hperm, elem_of_cons. split.
      * intros Hin. split; [by right|]. intros He. apply Hnotin.
        replace (e_name entry) with (e_name e) by congruence.
        by apply list_elem_of_fmap_2.
      * intros [[->|Hin] Hne]; [by rewrite Hn in Hne|done].
Qed.

(** ** Growing on insertion *)

(** C2, amended. An insertion that appends a new entry to a well-formed
    table succeeds, and asks for a grow to 8 times the capacity exactly
    when the chain held more than 8 entries before the new one was
    appended. [virHashGrow] refuses exactly the sizes outside
    [8, 16384] and leaves the table as it is then, so that the insertion
    returns 0 with the entry appended; a grow that is accepted leaves
    the same entries in a table of 8 times the capacity. *)
Theorem insertion_grows_after_long_chain
    (t : virHashTable) (name : string) (userdata : Z) (is_update : bool) :
  wf t ->
  virHashHasEntry (Some t) (Some name) = false ->
  virHashAddOrUpdateEntry (Some t) (Some name) userdata is_update =
    (0, insertionResult t name userdata (chainExceeds t name), []) /\
  wrap_size_t (MAX_HASH_LEN * ht_size t) = 8 * ht_size t /\
  (forall t1 size, fst (virHashGrow (Some t1) size) = -1 <-> size < 8 \/ 16384 < size) /\
  (forall t1 size, size < 8 \/ 16384 < size -> virHashGrow (Some t1) size = (-1, Some t1)) /\
  (16384 < 8 * ht_size t ->
   insertionResult t name userdata true = Some (appended t name userdata)) /\
  (8 * ht_size t <= 16384 ->
   exists t', insertionResult t name userdata true = Some t' /\
     ht_size t' = 8 * ht_size t /\
     virHashEntries t' ≡ₚ virHashEntries (appended t name userdata)).
Proof.
  intros W Hh. apply wf_wellFormed in W. apply hasEntry_false in Hh.
  pose proof (wf_size t W) as Hsz.
  assert (Hw : wrap_size_t (MAX_HASH_LEN * ht_size t) = 8 * ht_size t).
  { apply wrap_size_t_small. unfold MAX_HASH_LEN. lia. }
  split_and!; try done.
  - rewrite (addOrUpdate_absent_eq t name userdata is_update Hh).
    unfold insertionResult, chainExceeds. by destruct (_ >? MAX_HASH_LEN).
  - intros t1 size. split.
    + intros H. destruct (decide (8 <= size <= 8 * 2048)) as [Hin|Hout]; [|lia].
      destruct (grow_accepted t1 size Hin) as (t' & E & _). by rewrite E in H.
    + intros H. by rewrite grow_rejected by lia.
  - intros t1 size H. apply grow_rejected. lia.
  - intros H. unfold insertionResult. rewrite Hw. by rewrite grow_rejected by lia.
  - intros H. unfold insertionResult. rewrite Hw.
    destruct (grow_accepted (appended t name userdata) (8 * ht_size t))
      as (t' & E & _ & Hperm & _ & Hz & _); [lia|].
    exists t'. by rewrite E.
Qed.

(** C3. A grow of a well-formed table that succeeds keeps the mapping
    from keys to payloads: the entries are the same, a lookup of any
    name gives what it gave before, and in the table it leaves, whose
    capacity is the size asked for, every entry is in the bucket at the
    index its name hashes to modulo that size. *)
Theorem grow_preserves_mapping (t t' : virHashTable) (size : Z) :
  wf t ->
  virHashGrow (Some t) size = (0, Some t') ->
  virHashEntries t' ≡ₚ virHashEntries t /\
  (forall name,
     virHashLookup (Some t') (Some name) = virHashLookup (Some t) (Some name) /\
     virHashHasEntry (Some t') (Some name) = virHashHasEntry (Some t) (Some name)) /\
  ht_size t' = size /\
  length (ht_table t') = Z.to_nat size /\
  (forall i chain entry,
     ht_table t' !! i = Some chain -> entry ∈ chain ->
     Z.of_nat i =
       wrap32 (virHashCodeGen (e_name entry) (Z.of_nat (String.length (e_name entry)))
                 (ht_seed t)) mod size) /\
  ht_nbElems t' = ht_nbElems t /\
  wf t'.
Proof.
  intros W E. apply wf_wellFormed in W.
  destruct (decide (8 <= size <= 8 * 2048)) as [Hin|Hout].
  2:{ rewrite grow_rejected in E by lia. discriminate. }
  destruct (grow_wellFormed t size W Hin) as (t'' & E' & W' & Hperm & Hs & Hz & Hn & Hd).
  rewrite E' in E. injection E as ->.
  split_and!; try done.
  - intros name. unfold virHashLookup, virHashHasEntry.
    by rewrite (getEntry_perm t t' name W W' Hperm).
  - rewrite <- Hz. apply (wf_length t' W').
  - intros i chain entry Hl Hi. rewrite <- (wf_placed t' W' i chain entry Hl Hi).
    unfold virHashComputeKey. by rewrite Hs, Hz.
  - by apply wf_wellFormed.
Qed.

(** ** Removal of a set of entries *)

Lemma wrap_size_t_eq z : exists k, wrap_size_t z = z + k * 2 ^ 64.
Proof.
  exists (- (z / 2 ^ 64)). unfold wrap_size_t.
  pose proof (Z.div_mod z (2 ^ 64)). lia.
Qed.

Lemma wrap_size_t_range z : 0 <= wrap_size_t z < 2 ^ 64.
Proof. unfold wrap_size_t. by apply Z.mod_pos_bound. Qed.

Lemma removeSetChain_spec {A} (iter : virHashSearcher A) dataFree chain st :
  0 <= rs_nbElems st < 2 ^ 64 ->
  let '(kept, st') := removeSetChain iter dataFree chain st in
  kept `sublist_of` chain /\
  0 <= rs_nbElems st' < 2 ^ 64 /\
  exists k, rs_nbElems st' + Z.of_nat (length chain)
            = rs_nbElems st + Z.of_nat (length kept) + k * 2 ^ 64.
Proof.
  revert st. induction chain as [|entry next IH]; intros st Hst; simpl.
  - split; [done|]. split; [done|]. exists 0. lia.
  - destruct (iter (e_payload entry) (e_name entry) (rs_opaque st)) as [r opaque'].
    destruct (r =? 0).
    + specialize (IH (mkRS (rs_count st) (rs_nbElems st) opaque' (rs_events st)) Hst).
      destruct (removeSetChain iter dataFree next _) as [kept st'].
      destruct IH as (Hsub & Hr & k & Hk). simpl in *.
      split; [by apply sublist_skip|]. split; [done|]. exists k. lia.
    + set (st1 := mkRS _ _ _ _).
      assert (Hst1 : 0 <= rs_nbElems st1 < 2 ^ 64) by apply wrap_size_t_range.
      specialize (IH st1 Hst1).
      destruct (removeSetChain iter dataFree next st1) as [kept st'].
      destruct IH as (Hsub & Hr & k & Hk). simpl in Hk.
      destruct (wrap_size_t_eq (rs_nbElems st - 1)) as [q Hq].
      split; [by apply sublist_cons|]. split; [done|]. exists (k + q). lia.
Qed.

Lemma removeSetBuckets_spec {A} (iter : virHashSearcher A) dataFree buckets st :
  0 <= rs_nbElems st < 2 ^ 64 ->
  let '(buckets', st') := removeSetBuckets iter dataFree buckets st in
  Forall2 sublist buckets' buckets /\
  0 <= rs_nbElems st' < 2 ^ 64 /\
  exists k, rs_nbElems st' + Z.of_nat (length (mjoin buckets))
            = rs_nbElems st + Z.of_nat (length (mjoin buckets')) + k * 2 ^ 64.
Proof.
  revert st. induction buckets as [|chain rest IH]; intros st Hst; simpl.
  - split; [constructor|]. split; [done|]. exists 0. lia.
  - pose proof (removeSetChain_spec iter dataFree chain st Hst) as H1.
    destruct (removeSetChain iter dataFree chain st) as [chain' st1].
    destruct H1 as (Hsub1 & Hr1 & k1 & Hk1).
    specialize (IH st1 Hr1).
    destruct (removeSetBuckets iter dataFree rest st1) as [rest' st2].
    destruct IH as (Hsub2 & Hr2 & k2 & Hk2).
    split; [by constructor|]. split; [done|]. exists (k1 + k2).
    change (mjoin (chain :: rest)) with (chain ++ mjoin rest).
    change (mjoin (chain' :: rest')) with (chain' ++ mjoin rest').
    rewrite !length_app. lia.
Qed.

Lemma sublist_join (l k : list (list virHashEntry)) :
  Forall2 sublist l k -> mjoin l `sublist_of` mjoin k.
Proof.
  induction 1 as [|x y l k Hxy _ IH]; simpl; [done|]. by apply sublist_app.
Qed.

Lemma removeSet_wellFormed {A} t (iter : virHashSearcher A) opaque :
  wellFormed t ->
  exists t' count opaque' evs,
    virHashRemoveSet (Some t) (Some iter) opaque = (count, Some t', opaque', evs) /\
    wellFormed t' /\ ht_nbElems t' <= ht_nbElems t /\
    virHashEntries t' `sublist_of` virHashEntries t.
Proof.
  intros W. unfold virHashRemoveSet.
  pose proof (nbElems_nonneg t W) as H0. pose proof (wf_repr t W) as Hr.
  assert (Hr64 : 0 <= ht_nbElems t < 2 ^ 64) by lia.
  pose proof (removeSetBuckets_spec iter (ht_dataFree t) (ht_table t)
                (mkRS 0 (ht_nbElems t) opaque []) Hr64) as H.
  destruct (removeSetBuckets iter (ht_dataFree t) (ht_table t) _) as [buckets st].
  destruct H as (Hsub & Hr' & k & Hk). simpl in Hk.
  pose proof (sublist_join _ _ Hsub) as Hsubj.
  pose proof (sublist_length _ _ Hsubj) as Hlen.
  pose proof (wf_count t W) as Hc. unfold virHashEntries in Hc.
  assert (Hn : rs_nbElems st = Z.of_nat (length (mjoin buckets))).
  { lia. }
  eexists _, _, _, _. split; [done|]. split_and!.
  - constructor; simpl.
    + rewrite (Forall2_length _ _ _ Hsub). apply (wf_length t W).
    + apply (wf_size t W).
    + intros i chain entry Hl Hin.
      destruct (Forall2_lookup_l _ _ _ _ _ Hsub Hl) as (chain0 & Hl0 & Hs0).
      apply (wf_placed t W i chain0 entry Hl0).
      by eapply elem_of_sublist.
    + apply (sublist_NoDup _ (virHashKeys t)); [apply (wf_unique t W)|].
      unfold virHashKeys, virHashEntries. simpl. by apply fmap_sublist.
    + done.
    + lia.
  - simpl. lia.
  - done.
Qed.

(** ** Sequences of operations *)

Lemma addOrUpdate_inv t name userdata is_update :
  wellFormed t -> ht_nbElems t < 2 ^ 63 - 1 ->
  exists ret t' evs,
    virHashAddOrUpdateEntry (Some t) name userdata is_update = (ret, Some t', evs) /\
    wellFormed t' /\ ht_nbElems t' <= ht_nbElems t + 1.
Proof.
  intros W Hb. destruct name as [name|]; [|exists (-1), t, []; split_and!; [done..|lia]].
  destruct (chainFind name (bucket t (virHashComputeKey t name))) as [[i entry]|] eqn:E.
  - pose proof (chainFind_Some _ _ _ _ E) as [Hl Hn].
    unfold virHashAddOrUpdateEntry. rewrite E. destruct is_update.
    + eexists _, _, _. split; [done|]. rewrite Hn.
      split; [by apply (overwritten_wellFormed t name i entry)|simpl; lia].
    + eexists _, _, _. split; [done|]. split; [done|lia].
  - apply chainFind_None_keys in E; [|done].
    destruct (addOrUpdate_absent t name userdata is_update W E Hb)
      as (t' & -> & W' & _ & Hn & _).
    eexists _, _, _. split; [done|]. split; [done|lia].
Qed.

Lemma remove_inv t name :
  wellFormed t ->
  exists ret t' evs,
    virHashRemoveEntry (Some t) name = (ret, Some t', evs) /\
    wellFormed t' /\ ht_nbElems t' <= ht_nbElems t.
Proof.
  intros W. destruct name as [name|]; [|exists (-1), t, []; split_and!; [done..|lia]].
  destruct (chainFind name (bucket t (virHashComputeKey t name))) as [[i entry]|] eqn:E.
  - pose proof (chainFind_Some _ _ _ _ E) as [Hl Hn].
    rewrite (remove_present_eq t name i entry E).
    destruct (unlinked_wellFormed t name i entry W Hl) as (W' & Hc & _).
    eexists _, _, _. split; [done|]. split; [done|lia].
  - rewrite (remove_absent_eq t name E).
    eexists _, _, _. split; [done|]. split; [done|lia].
Qed.

Lemma set_dataFree_wellFormed t f : wellFormed t -> wellFormed (set_dataFree t f).
Proof. intros [? ? ? ? ? ?]. by constructor. Qed.

Lemma steal_inv t name :
  wellFormed t ->
  exists data t' evs,
    virHashSteal (Some t) name = (data, Some t', evs) /\
    wellFormed t' /\ ht_nbElems t' <= ht_nbElems t.
Proof.
  intros W. unfold virHashSteal. destruct (virHashLookup (Some t) name =? NULL).
  - eexists _, _, _. split; [done|]. split; [done|lia].
  - destruct (remove_inv (set_dataFree t NULL) name (set_dataFree_wellFormed t NULL W))
      as (ret & t' & evs & -> & W' & Hn).
    eexists _, _, _. split; [done|].
    split; [by apply set_dataFree_wellFormed|simpl in *; lia].
Qed.

Lemma removeSet_inv {A} t (iter : option (virHashSearcher A)) opaque :
  wellFormed t ->
  exists count t' opaque' evs,
    virHashRemoveSet (Some t) iter opaque = (count, Some t', opaque', evs) /\
    wellFormed t' /\ ht_nbElems t' <= ht_nbElems t.
Proof.
  intros W. destruct iter as [iter|].
  - destruct (removeSet_wellFormed t iter opaque W)
      as (t' & count & opaque' & evs & E & W' & Hn & _).
    by exists count, t', opaque', evs.
  - exists (-1), t, opaque, []. split_and!; [done..|lia].
Qed.

Lemma apply_op_inv n table o :
  reachableInv n table -> n < 2 ^ 63 - 1 -> reachableInv (n + 1) (apply_op table o).
Proof.
  intros (t & -> & W & Hn) Hb. unfold reachableInv.
  destruct o as [name userdata|name userdata|name|name|A iter opaque|]; unfold apply_op.
  - destruct (addOrUpdate_inv t name userdata false W) as (ret & t' & evs & E & W' & Hn');
      [lia|].
    unfold virHashAddEntry. rewrite E. exists t'. split_and!; [done..|simpl; lia].
  - destruct (addOrUpdate_inv t name userdata true W) as (ret & t' & evs & E & W' & Hn');
      [lia|].
    unfold virHashUpdateEntry. rewrite E. exists t'. split_and!; [done..|simpl; lia].
  - destruct (remove_inv t name W) as (ret & t' & evs & E & W' & Hn').
    rewrite E. exists t'. split_and!; [done..|simpl; lia].
  - destruct (steal_inv t name W) as (ret & t' & evs & E & W' & Hn').
    rewrite E. exists t'. split_and!; [done..|simpl; lia].
  - destruct (removeSet_inv t iter opaque W) as (ret & t' & o' & evs & E & W' & Hn').
    rewrite E. exists t'. split_and!; [done..|simpl; lia].
  - unfold virHashRemoveAll.
    destruct (removeSet_inv t (Some _virHashRemoveAllIter) tt W)
      as (ret & t' & o' & evs & E & W' & Hn').
    rewrite E. exists t'. split_and!; [done..|simpl; lia].
Qed.

Lemma run_inv ops n table :
  reachableInv n table -> n + Z.of_nat (length ops) < 2 ^ 63 ->
  reachableInv (n + Z.of_nat (length ops)) (run ops table).
Proof.
  revert n table. induction ops as [|o ops IH]; intros n table Hi Hb; simpl.
  - by rewrite Z.add_0_r.
  - simpl length in Hb. rewrite Nat2Z.inj_succ in *.
    replace (n + Z.succ (Z.of_nat (length ops))) with (n + 1 + Z.of_nat (length ops)) by lia.
    apply IH; [|lia]. apply apply_op_inv; [done|lia].
Qed.

Lemma keySet_size t :
  wellFormed t ->
  virHashSize (Some t) = Z.of_nat (size (keySet (Some t))).
Proof.
  intros W. rewrite (size_wellFormed t W). simpl.
  rewrite size_list_to_set by apply (wf_unique t W).
  unfold virHashKeys. rewrite length_fmap. apply (wf_count t W).
Qed.

(** C1. After any sequence of operations on a freshly constructed table
    (fewer than 2^63 - 1 of them, a bound that only says the element
    count fits its type), [virHashSize] is the number of distinct keys
    present. From there, adding a key that is not present succeeds and
    increments the size by one, updating a key that is present succeeds
    and leaves the size unchanged, and a remove that succeeds takes the
    key out and decrements the size by one. *)
Theorem size_counts_distinct_keys (randomBits dataFree : Z) (ops : list op) :
  Z.of_nat (length ops) < 2 ^ 63 - 1 ->
  let table := run ops (Some (virHashNew randomBits dataFree)) in
  virHashSize table = Z.of_nat (size (keySet table)) /\
  (forall name userdata, name ∉ keySet table ->
     exists table', virHashAddEntry table (Some name) userdata = (0, table', []) /\
       keySet table' = {[name]} ∪ keySet table /\
       virHashSize table' = virHashSize table + 1) /\
  (forall name userdata, name ∈ keySet table ->
     exists table' evs, virHashUpdateEntry table (Some name) userdata = (0, table', evs) /\
       keySet table' = keySet table /\
       virHashSize table' = virHashSize table) /\
  (forall name table' evs, virHashRemoveEntry table (Some name) = (0, table', evs) ->
     name ∈ keySet table /\ keySet table' = keySet table ∖ {[name]} /\
     virHashSize table' = virHashSize table - 1).
Proof.
  intros Hlen.
  assert (Hi : reachableInv 0 (Some (virHashNew randomBits dataFree))).
  { exists (virHashNew randomBits dataFree). split_and!; [done|apply wellFormed_new|done]. }
  apply (run_inv ops) in Hi; [|lia].
  destruct Hi as (t & -> & W & Hn). simpl in Hn.
  assert (Hb : ht_nbElems t < 2 ^ 63 - 1) by lia.
  split_and!.
  - by apply keySet_size.
  - intros name userdata Hnotin. simpl in Hnotin. rewrite elem_of_list_to_set in Hnotin.
    destruct (addOrUpdate_absent t name userdata false W Hnotin)
      as (t' & E & W' & Hperm & Hc & _); [lia|].
    exists (Some t'). split_and!; [done| |].
    + unfold keySet, virHashKeys. by rewrite Hperm, fmap_cons, list_to_set_cons.
    + by rewrite !size_wellFormed.
  - intros name userdata Hin. simpl in Hin. rewrite elem_of_list_to_set in Hin.
    apply (hasEntry_keys t name W), hasEntry_true in Hin as (i & entry & E).
    pose proof (chainFind_Some _ _ _ _ E) as [Hl Hname].
    eexists _, _. split.
    { unfold virHashUpdateEntry, virHashAddOrUpdateEntry. rewrite E, Hname. done. }
    fold (overwritten t name i userdata).
    pose proof (overwritten_wellFormed t name i entry userdata W Hl Hname) as W'.
    split.
    + simpl. by rewrite (overwritten_keys t name i entry userdata W Hl Hname).
    + by rewrite !size_wellFormed.
  - intros name table' evs E.
    destruct (chainFind name (bucket t (virHashComputeKey t name))) as [[i entry]|] eqn:Ec.
    2:{ rewrite (remove_absent_eq t name Ec) in E. discriminate. }
    rewrite (remove_present_eq t name i entry Ec) in E. injection E as <- <-.
    pose proof (chainFind_Some _ _ _ _ Ec) as [Hl Hname].
    destruct (unlinked_wellFormed t name i entry W Hl) as (W' & Hc & Hnotin).
    pose proof (unlinked_entries t name i entry W Hl) as Hperm.
    rewrite Hname in Hnotin.
    assert (Hk : keySet (Some t) = {[name]} ∪ keySet (Some (unlinked t name i))).
    { unfold keySet, virHashKeys.
      by rewrite Hperm, fmap_cons, list_to_set_cons, Hname. }
    assert (Hn' : name ∉ keySet (Some (unlinked t name i))).
    { simpl. by rewrite elem_of_list_to_set. }
    split_and!.
    + rewrite Hk. apply elem_of_union_l. by apply elem_of_singleton.
    + apply set_eq. intros x. rewrite Hk, elem_of_difference, elem_of_union, elem_of_singleton.
      split; [|by intros [[?|?] ?]].
      intros Hx. split; [by right|]. by intros ->.
    + by rewrite !size_wellFormed.
Qed.

(** ** Equality of tables *)

Lemma equalSearcher_entries table2 compar entries equal :
  (searchEntries virHashEqualSearcher entries (mkEqData equal table2 compar)).2
  = mkEqData (equal && forallb (entryMatches table2 compar) entries) table2 compar.
Proof.
  induction entries as [|entry next IH]; simpl.
  - by rewrite andb_true_r.
  - unfold virHashEqualSearcher at 1, entryMatches at 1. simpl.
    destruct (_ || _); simpl.
    + by rewrite andb_false_r.
    + by rewrite IH.
Qed.

Lemma entryMatches_spec t2 compar entry :
  entryMatches (Some t2) compar entry = true <->
  virHashLookup (Some t2) (Some (e_name entry)) <> NULL /\
  compar (virHashLookup (Some t2) (Some (e_name entry))) (e_payload entry) = 0.
Proof.
  unfold entryMatches.
  rewrite negb_true_iff, orb_false_iff, negb_false_iff, Z.eqb_neq, Z.eqb_eq. done.
Qed.

Lemma equal_distinct mem table1 table2 compar t1 t2 :
  table1 <> table2 ->
  deref mem table1 = Some t1 -> deref mem table2 = Some t2 ->
  virHashEqual mem table1 table2 compar =
    (virHashSize (Some t1) =? virHashSize (Some t2))
    && forallb (entryMatches (Some t2) compar) (virHashEntries t1).
Proof.
  intros Hne H1 H2. unfold virHashEqual.
  destruct (table1 =? table2) eqn:E; [by apply Z.eqb_eq in E|].
  assert ((table1 =? NULL) = false) as ->.
  { unfold deref in H1. by destruct (table1 =? NULL). }
  assert ((table2 =? NULL) = false) as ->.
  { unfold deref in H2. by destruct (table2 =? NULL). }
  rewrite H1, H2. simpl.
  destruct (to_ssize_t (ht_nbElems t1) =? to_ssize_t (ht_nbElems t2)); simpl; [|done].
  pose proof (equalSearcher_entries (Some t2) compar (virHashEntries t1) true) as Hs.
  destruct (searchEntries virHashEqualSearcher (virHashEntries t1) _) as [[entry|] data];
    simpl in Hs; by rewrite Hs.
Qed.

(** C8, amended. [virHashEqual] returns true for two references to the
    same table (two null references included). For distinct references
    it returns false when one of them is null or when the sizes differ,
    and for two tables of the same size it returns true exactly when,
    for every entry of the first table, the lookup of its key in the
    second table returns a payload that is not null and that the
    comparator, applied to it and to the payload of the entry, finds
    equal; the keys of the second table are not walked. *)
Theorem equal_spec (mem : gmap Z virHashTable) (table1 table2 : Z)
    (compar : virHashValueComparator) :
  (table1 = table2 -> virHashEqual mem table1 table2 compar = true) /\
  (table1 <> table2 -> table1 = NULL \/ table2 = NULL ->
   virHashEqual mem table1 table2 compar = false) /\
  (forall t1 t2,
     table1 <> table2 ->
     deref mem table1 = Some t1 -> deref mem table2 = Some t2 ->
     (virHashSize (Some t1) <> virHashSize (Some t2) ->
      virHashEqual mem table1 table2 compar = false) /\
     (virHashSize (Some t1) = virHashSize (Some t2) ->
      (virHashEqual mem table1 table2 compar = true <->
       everyKeyMatchesNonNull t1 t2 compar))).
Proof.
  split_and!.
  - intros ->. unfold virHashEqual. by rewrite Z.eqb_refl.
  - intros Hne Hnull. unfold virHashEqual.
    destruct (table1 =? table2) eqn:E; [by apply Z.eqb_eq in E|].
    destruct Hnull as [->| ->]; simpl; [done|]. by rewrite orb_true_r.
  - intros t1 t2 Hne H1 H2. rewrite (equal_distinct mem table1 table2 compar t1 t2 Hne H1 H2).
    split.
    + intros Hs. apply Z.eqb_neq in Hs. by rewrite Hs.
    + intros Hs. apply Z.eqb_eq in Hs. rewrite Hs. simpl.
      rewrite forallb_forall. unfold everyKeyMatchesNonNull.
      split; intros H entry Hin.
      * apply entryMatches_spec, H. by apply list_elem_of_In.
      * apply entryMatches_spec, H. by apply list_elem_of_In.
Qed.

(** ** The order of [strcmp] *)

Lemma ascii_compare_refl (c : Ascii.ascii) : Ascii.compare c c = Eq.
Proof. unfold Ascii.compare. apply N.compare_refl. Qed.

Lemma ascii_compare_lt_trans (a b c : Ascii.ascii) :
  Ascii.compare a b = Lt -> Ascii.compare b c = Lt -> Ascii.compare a c = Lt.
Proof.
  unfold Ascii.compare. rewrite !N.compare_lt_iff. apply N.lt_trans.
Qed.

Lemma compare_lt_trans (a b c : string) :
  String.compare a b = Lt -> String.compare b c = Lt -> String.compare a c = Lt.
Proof.
  revert b c. induction a as [|x a IH]; intros [|y b] [|z c]; simpl; try done.
  destruct (Ascii.compare x y) eqn:Exy; try done;
    destruct (Ascii.compare y z) eqn:Eyz; try done.
  - apply Ascii.compare_eq_iff in Exy as ->. apply Ascii.compare_eq_iff in Eyz as ->.
    rewrite ascii_compare_refl. apply IH.
  - apply Ascii.compare_eq_iff in Exy as ->. by rewrite Eyz.
  - apply Ascii.compare_eq_iff in Eyz as <-. by rewrite Exy.
  - by rewrite (ascii_compare_lt_trans x y z Exy Eyz).
Qed.

Lemma strcmp_lt (a b : string) : strcmp a b < 0 <-> String.compare a b = Lt.
Proof. unfold strcmp. destruct (String.compare a b); split; (done || lia). Qed.

Lemma strcmp_gt (a b : string) : 0 < strcmp a b -> strcmp b a < 0.
Proof.
  unfold strcmp. rewrite (String.compare_antisym b a).
  destruct (String.compare a b); simpl; lia.
Qed.

Lemma keyLt_trans a b c : keyLt a b -> keyLt b c -> keyLt a c.
Proof. unfold keyLt. rewrite !strcmp_lt. apply compare_lt_trans. Qed.

Lemma keyLt_asym a b : keyLt a b -> keyLt b a -> False.
Proof.
  unfold keyLt. rewrite !strcmp_lt, (String.compare_antisym (e_name b) (e_name a)).
  intros ->. done.
Qed.

(** ** Sorting *)

Lemma qsort_insert_perm {X} (compar : X -> X -> Z) x l :
  qsort_insert compar x l ≡ₚ x :: l.
Proof.
  induction l as [|y l IH]; simpl; [done|].
  destruct (compar x y <=? 0); [done|]. rewrite IH. apply Permutation_swap.
Qed.

Lemma isort_perm {X} (compar : X -> X -> Z) l :
  foldr (qsort_insert compar) [] l ≡ₚ l.
Proof.
  induction l as [|x l IH]; simpl; [done|]. by rewrite qsort_insert_perm, IH.
Qed.

Lemma qsort_insert_fmap {X Y} (f : X -> Y) (cx : X -> X -> Z) (cy : Y -> Y -> Z) x l :
  (forall a b, cy (f a) (f b) = cx a b) ->
  qsort_insert cy (f x) (f <$> l) = f <$> qsort_insert cx x l.
Proof.
  intros H. induction l as [|y l IH]; [done|].
  rewrite fmap_cons. cbn [qsort_insert]. rewrite H.
  destruct (cx x y <=? 0); [done|]. rewrite fmap_cons. f_equal. apply IH.
Qed.

Lemma isort_fmap {X Y} (f : X -> Y) (cx : X -> X -> Z) (cy : Y -> Y -> Z) l :
  (forall a b, cy (f a) (f b) = cx a b) ->
  foldr (qsort_insert cy) [] (f <$> l) = f <$> foldr (qsort_insert cx) [] l.
Proof.
  intros H. induction l as [|x l IH]; [done|].
  rewrite fmap_cons. cbn [foldr]. by rewrite IH, (qsort_insert_fmap f cx cy).
Qed.

Lemma qsort_insert_sorted x l :
  StronglySorted keyLt l -> e_name x ∉ e_name <$> l ->
  StronglySorted keyLt (qsort_insert entryCmp x l).
Proof.
  induction l as [|y l IH]; simpl; intros Hs Hn.
  - repeat constructor.
  - apply StronglySorted_inv in Hs as [Hs Hy].
    apply not_elem_of_cons in Hn as [Hxy Hn].
    assert (Hne : entryCmp x y <> 0).
    { unfold entryCmp. by rewrite strcmp_eq. }
    destruct (entryCmp x y <=? 0) eqn:E.
    + apply Z.leb_le in E. assert (Hlt : keyLt x y) by (unfold keyLt, entryCmp in *; lia).
      constructor; [by constructor|]. constructor; [done|].
      eapply Forall_impl; [apply Hy|]. intros z Hz. by apply (keyLt_trans x y z).
    + apply Z.leb_gt in E. constructor; [by apply IH|].
      rewrite (qsort_insert_perm entryCmp x l). constructor; [|done].
      by apply strcmp_gt.
Qed.

Lemma isort_sorted l :
  NoDup (e_name <$> l) -> StronglySorted keyLt (foldr (qsort_insert entryCmp) [] l).
Proof.
  induction l as [|x l IH]; simpl; intros ND; [constructor|].
  apply NoDup_cons in ND as [Hn ND].
  apply qsort_insert_sorted; [by apply IH|]. by rewrite (isort_perm entryCmp l).
Qed.

(** A list with a strict order on it has one sorted arrangement. *)
Lemma sorted_unique {X} (R : X -> X -> Prop) (l1 l2 : list X) :
  (forall a b, R a b -> R b a -> False) ->
  StronglySorted R l1 -> StronglySorted R l2 -> l1 ≡ₚ l2 -> l1 = l2.
Proof.
  intros Hasym. revert l2. induction l1 as [|a l1 IH]; intros l2 H1 H2 Hp.
  - by apply Permutation_nil_l in Hp.
  - destruct l2 as [|b l2]; [by apply Permutation_nil_r in Hp|].
    apply StronglySorted_inv in H1 as [H1 Ha]. apply StronglySorted_inv in H2 as [H2 Hb].
    rewrite Forall_forall in Ha, Hb.
    assert (a = b) as <-.
    { assert (Hin1 : a ∈ b :: l2) by (rewrite <- Hp; left).
      assert (Hin2 : b ∈ a :: l1) by (rewrite Hp; left).
      apply elem_of_cons in Hin1 as [?|Hin1]; [done|].
      apply elem_of_cons in Hin2 as [?|Hin2]; [done|].
      exfalso. apply (Hasym a b); [by apply Ha|by apply Hb]. }
    f_equal. apply IH; try done. by apply Permutation_cons_inv in Hp.
Qed.

Lemma sorted_fmap_names l :
  StronglySorted keyLt l -> StronglySorted (fun a b => strcmp a b < 0) (e_name <$> l).
Proof.
  induction 1 as [|a l Hs IH Ha]; simpl; constructor; [done|].
  by apply Forall_fmap.
Qed.

(** ** Snapshots *)

Lemma getItemsIterator_fill entries pre rest :
  (length entries <= length rest)%nat ->
  Z.of_nat (length pre + length entries) < 2 ^ 64 ->
  forEachEntries virHashGetItemsIterator entries
    (mkItData (pre ++ rest) (Z.of_nat (length pre)))
  = (0, mkItData (pre ++ (toPair <$> entries) ++ drop (length entries) rest)
                 (Z.of_nat (length pre + length entries))).
Proof.
  revert pre rest. induction entries as [|entry next IH]; intros pre rest Hl Hb.
  - simpl. by rewrite Nat.add_0_r.
  - destruct rest as [|r rest]; [simpl in Hl; lia|].
    cbn [forEachEntries]. unfold virHashGetItemsIterator at 1. cbn [it_items it_i].
    rewrite Nat2Z.id, insert_app_r_alt by lia. rewrite Nat.sub_diag.
    cbn [list_insert insert]. simpl length in *.
    rewrite wrap_size_t_small by lia.
    change (0 <? 0) with false. cbn iota. fold (toPair entry).
    replace (Z.of_nat (length pre) + 1) with (Z.of_nat (length (pre ++ [toPair entry])))
      by (rewrite length_app; simpl; lia).
    replace (pre ++ toPair entry :: rest) with ((pre ++ [toPair entry]) ++ rest)
      by by rewrite <- app_assoc.
    rewrite IH by (rewrite ?length_app; simpl; lia).
    rewrite length_app, <- !app_assoc. simpl.
    do 2 f_equal. lia.
Qed.

Lemma getItems_wellFormed t sortKeys :
  wellFormed t ->
  virHashGetItems (Some t) sortKeys =
    ((if sortKeys
      then toPair <$> foldr (qsort_insert entryCmp) [] (virHashEntries t)
      else toPair <$> virHashEntries t) ++ [sentinel],
     virHashSize (Some t)).
Proof.
  intros W. unfold virHashGetItems.
  pose proof (nbElems_nonneg t W) as H0. pose proof (wf_repr t W) as Hr.
  pose proof (wf_count t W) as Hc.
  rewrite (size_wellFormed t W).
  rewrite (wrap_size_t_small (ht_nbElems t)) by lia.
  rewrite wrap_size_t_small by lia.
  replace (Z.to_nat (ht_nbElems t + 1)) with (S (length (virHashEntries t))) by lia.
  unfold virHashForEach.
  pose proof (getItemsIterator_fill (virHashEntries t) []
                (replicate (S (length (virHashEntries t))) sentinel)) as Hf.
  rewrite length_replicate in Hf.
  change ([] ++ ?x) with x in Hf. change (length [] + ?n)%nat with n in Hf.
  change (Z.of_nat (length [])) with 0 in Hf. fold sentinel.
  rewrite Hf by lia. clear Hf.
  rewrite drop_replicate.
  replace (S (length (virHashEntries t)) - length (virHashEntries t))%nat with 1%nat by lia.
  cbn [it_items replicate]. f_equal.
  destruct sortKeys; [|done].
  unfold qsort.
  rewrite take_app_length' by (rewrite length_fmap; lia).
  rewrite drop_app_length' by (rewrite length_fmap; lia).
  f_equal. by apply isort_fmap.
Qed.

Lemma forEachItems_record (entries : list virHashEntry) (tail : list virHashKeyValuePair)
    (visited : list string) :
  forEachItems (fun _ key visited => (0, visited ++ [key]))
    ((toPair <$> entries) ++ sentinel :: tail) visited
  = (0, visited ++ (e_name <$> entries)).
Proof.
  revert visited. induction entries as [|entry next IH]; intros visited; simpl.
  - by rewrite app_nil_r.
  - rewrite IH. by rewrite <- app_assoc.
Qed.

(** C9. For a well-formed table [virHashGetItems] with [sortKeys] set
    returns an array of [virHashSize] pairs followed by the element with
    a null key; the pairs are the entries of the table, each once, in
    strictly increasing order of [strcmp] on the keys. [virHashForEachSorted]
    walks that array, so that a callback that records the keys it is
    given records them in that order, which for the keys b, a, c is
    a, b, c. *)
Theorem getItems_sorted (t : virHashTable) :
  wf t ->
  exists sorted : list virHashEntry,
    virHashGetItems (Some t) true = ((toPair <$> sorted) ++ [sentinel], virHashSize (Some t)) /\
    Z.of_nat (length sorted) = virHashSize (Some t) /\
    sorted ≡ₚ virHashEntries t /\
    NoDup sorted /\
    StronglySorted keyLt sorted /\
    (forall (A : Type) (iter : virHashIterator A) (opaque : A),
       virHashForEachSorted (Some t) iter opaque
       = forEachItems iter ((toPair <$> sorted) ++ [sentinel]) opaque) /\
    (forall visited,
       virHashForEachSorted (Some t) (fun _ key visited => (0, visited ++ [key])) visited
       = (0, visited ++ (e_name <$> sorted))) /\
    (virHashKeys t ≡ₚ ["b"; "a"; "c"]%string ->
     e_name <$> sorted = ["a"; "b"; "c"]%string /\
     virHashForEachSorted (Some t) (fun _ key visited => (0, visited ++ [key])) []
     = (0, ["a"; "b"; "c"]%string)).
Proof.
  intros W. apply wf_wellFormed in W.
  exists (foldr (qsort_insert entryCmp) [] (virHashEntries t)).
  pose proof (getItems_wellFormed t true W) as Hg. cbn iota in Hg.
  pose proof (isort_perm entryCmp (virHashEntries t)) as Hperm.
  pose proof (isort_sorted (virHashEntries t) (wf_unique t W)) as Hsorted.
  assert (Hfe : forall (A : Type) (iter : virHashIterator A) (opaque : A),
    virHashForEachSorted (Some t) iter opaque
    = forEachItems iter
        ((toPair <$> foldr (qsort_insert entryCmp) [] (virHashEntries t)) ++ [sentinel])
        opaque).
  { intros A iter opaque. unfold virHashForEachSorted. rewrite Hg. simpl.
    by destruct (_ ++ [sentinel]) eqn:E; [apply app_eq_nil in E as [_ ?]|]. }
  split_and!; try done.
  - rewrite Hperm, (size_wellFormed t W). symmetry. apply (wf_count t W).
  - rewrite Hperm. apply (NoDup_fmap_1 e_name), (wf_unique t W).
  - intros visited. rewrite Hfe. apply forEachItems_record.
  - intros Hk.
    assert (Hn : e_name <$> foldr (qsort_insert entryCmp) [] (virHashEntries t)
                 = ["a"; "b"; "c"]%string).
    { apply (sorted_unique (fun a b => strcmp a b < 0)).
      + intros a b. rewrite !strcmp_lt, (String.compare_antisym b a). by intros ->.
      + by apply sorted_fmap_names.
      + repeat constructor.
      + rewrite Hperm. fold (virHashKeys t). rewrite Hk. apply Permutation_swap. }
    split; [done|]. rewrite Hfe, forEachItems_record. by rewrite Hn.
Qed.

(** * Further properties of the operations *)

(** ** Lookups and the entries of a table *)

Lemma getEntry_same t t' name :
  wellFormed t -> wellFormed t' ->
  (forall entry, e_name entry = name ->
     entry ∈ virHashEntries t' <-> entry ∈ virHashEntries t) ->
  virHashGetEntry (Some t') (Some name) = virHashGetEntry (Some t) (Some name).
Proof.
  intros W W' H.
  destruct (virHashGetEntry (Some t) (Some name)) as [entry|] eqn:E.
  - apply getEntry_elem in E as [Hin Hn]. rewrite <- Hn.
    apply getEntry_Some; [done|]. by apply H.
  - apply getEntry_None; [done|]. apply getEntry_None in E; [|done].
    intros Hin. apply E. apply list_elem_of_fmap in Hin as (entry & -> & Hin).
    apply list_elem_of_fmap_2. by apply H.
Qed.

Lemma lookup_same t t' name :
  virHashGetEntry (Some t') (Some name) = virHashGetEntry (Some t) (Some name) ->
  virHashLookup (Some t') (Some name) = virHashLookup (Some t) (Some name) /\
  virHashHasEntry (Some t') (Some name) = virHashHasEntry (Some t) (Some name).
Proof. intros H. unfold virHashLookup, virHashHasEntry. by rewrite H. Qed.

Lemma lookup_entry t entry :
  wellFormed t -> entry ∈ virHashEntries t ->
  virHashLookup (Some t) (Some (e_name entry)) = e_payload entry /\
  virHashHasEntry (Some t) (Some (e_name entry)) = true.
Proof.
  intros W Hin. unfold virHashLookup, virHashHasEntry.
  by rewrite (getEntry_Some t entry W Hin).
Qed.

Lemma lookup_absent t name :
  wellFormed t -> name ∉ virHashKeys t ->
  virHashLookup (Some t) (Some name) = NULL /\
  virHashHasEntry (Some t) (Some name) = false.
Proof.
  intros W Hn. apply (getEntry_None t name W) in Hn.
  unfold virHashLookup, virHashHasEntry. by rewrite Hn.
Qed.

(** X1. In a well-formed table a lookup finds exactly the entries that a
    walk of the buckets visits: the name of every entry of the walk is
    looked up to the payload of that entry, and a name that no entry of
    the walk has is looked up to null and reported absent. *)
Theorem lookup_agrees_with_walk (t : virHashTable) :
  wf t ->
  (forall entry, entry ∈ virHashEntries t ->
     virHashLookup (Some t) (Some (e_name entry)) = e_payload entry /\
     virHashHasEntry (Some t) (Some (e_name entry)) = true) /\
  (forall name, name ∉ virHashKeys t ->
     virHashLookup (Some t) (Some name) = NULL /\
     virHashHasEntry (Some t) (Some name) = false) /\
  (forall name, virHashHasEntry (Some t) (Some name) = true <-> name ∈ virHashKeys t).
Proof.
  intros W. apply wf_wellFormed in W. split_and!.
  - intros entry Hin. by apply lookup_entry.
  - intros name Hn. by apply lookup_absent.
  - intros name. by apply hasEntry_keys.
Qed.

(** ** Insertion *)

Lemma inserted_lookups t t' name userdata :
  wellFormed t -> wellFormed t' -> name ∉ virHashKeys t ->
  virHashEntries t' ≡ₚ mkEntry name userdata :: virHashEntries t ->
  virHashLookup (Some t') (Some name) = userdata /\
  virHashHasEntry (Some t') (Some name) = true /\
  (forall other, other <> name ->
     virHashLookup (Some t') (Some other) = virHashLookup (Some t) (Some other) /\
     virHashHasEntry (Some t') (Some other) = virHashHasEntry (Some t) (Some other)).
Proof.
  intros W W' Hn Hperm.
  assert (Hin : mkEntry name userdata ∈ virHashEntries t') by (rewrite Hperm; left).
  destruct (lookup_entry t' _ W' Hin) as [Hl Hh]. simpl in Hl, Hh.
  split_and!; try done.
  intros other Hne. apply lookup_same, getEntry_same; try done.
  intros entry He. rewrite Hperm, elem_of_cons. split; [|by right].
  intros [->|?]; [|done]. simpl in He. congruence.
Qed.

(** X2. Adding a key that a well-formed table does not hold succeeds
    without a destructor call, whether or not the table grows: the key
    is then looked up to the payload given, every other name is looked
    up to what it was before, and the size is one more. *)
Theorem add_then_lookup (t : virHashTable) (name : string) (userdata : Z) :
  wf t ->
  ht_nbElems t < 2 ^ 63 - 1 ->
  virHashHasEntry (Some t) (Some name) = false ->
  exists t',
    virHashAddEntry (Some t) (Some name) userdata = (0, Some t', []) /\
    wf t' /\
    virHashLookup (Some t') (Some name) = userdata /\
    virHashHasEntry (Some t') (Some name) = true /\
    (forall other, other <> name ->
       virHashLookup (Some t') (Some other) = virHashLookup (Some t) (Some other) /\
       virHashHasEntry (Some t') (Some other) = virHashHasEntry (Some t) (Some other)) /\
    virHashSize (Some t') = virHashSize (Some t) + 1.
Proof.
  intros W Hb Hh. apply wf_wellFormed in W.
  apply hasEntry_false, chainFind_None_keys in Hh; [|done].
  destruct (addOrUpdate_absent t name userdata false W Hh Hb)
    as (t' & E & W' & Hperm & Hc & _).
  destruct (inserted_lookups t t' name userdata W W' Hh Hperm) as (H1 & H2 & H3).
  exists t'. split_and!; try done.
  - by apply wf_wellFormed.
  - rewrite !size_wellFormed by done. done.
Qed.

Lemma unlinked_lookups t name i entry :
  wellFormed t ->
  chainFind name (bucket t (virHashComputeKey t name)) = Some (i, entry) ->
  forall other, other <> name ->
    virHashLookup (Some (unlinked t name i)) (Some other) = virHashLookup (Some t) (Some other) /\
    virHashHasEntry (Some (unlinked t name i)) (Some other)
    = virHashHasEntry (Some t) (Some other).
Proof.
  intros W E other Hne. pose proof (chainFind_Some _ _ _ _ E) as [Hl Hn].
  destruct (unlinked_wellFormed t name i entry W Hl) as (Wu & _ & _).
  apply lookup_same, getEntry_same; try done.
  intros e He. rewrite (unlinked_entries t name i entry W Hl), elem_of_cons.
  split; [by right|]. intros [->|?]; [congruence|done].
Qed.

(** ** Update *)

Lemma overwritten_entries t name i entry userdata :
  wellFormed t ->
  bucket t (virHashComputeKey t name) !! i = Some entry ->
  virHashEntries (overwritten t name i userdata)
  ≡ₚ mkEntry name userdata :: virHashEntries (unlinked t name i).
Proof.
  intros W Hl. pose proof (computeKey_range t name (proj1 (wf_size t W))) as Hk.
  unfold overwritten, unlinked.
  change (virHashEntries (set_nbElems ?x _)) with (virHashEntries x).
  rewrite !entries_set_bucket by (done || apply (wf_length t W)).
  assert (Hc : <[i := mkEntry name userdata]> (bucket t (virHashComputeKey t name))
               ≡ₚ mkEntry name userdata :: delete i (bucket t (virHashComputeKey t name))).
  { rewrite insert_take_drop by (by eapply lookup_lt_Some).
    rewrite delete_take_drop. symmetry. apply Permutation_middle. }
  rewrite Hc. simpl. symmetry. apply Permutation_middle.
Qed.

(** X3. [virHashUpdateEntry] on a well-formed table always succeeds: it
    overwrites the payload of a key that is present, after one destructor
    call on the old payload when a destructor is registered, and inserts
    a key that is absent, without a call. Either way the key is then
    looked up to the new payload, every other name is looked up to what
    it was before, and the size grows by one only in the second case. *)
Theorem update_is_upsert (t : virHashTable) (name : string) (userdata : Z) :
  wf t ->
  ht_nbElems t < 2 ^ 63 - 1 ->
  exists t',
    virHashUpdateEntry (Some t) (Some name) userdata =
      (0, Some t',
       if virHashHasEntry (Some t) (Some name)
       then freeEvents (ht_dataFree t) [mkEntry name (virHashLookup (Some t) (Some name))]
       else []) /\
    wf t' /\
    virHashLookup (Some t') (Some name) = userdata /\
    virHashHasEntry (Some t') (Some name) = true /\
    (forall other, other <> name ->
       virHashLookup (Some t') (Some other) = virHashLookup (Some t) (Some other) /\
       virHashHasEntry (Some t') (Some other) = virHashHasEntry (Some t) (Some other)) /\
    virHashSize (Some t') =
      virHashSize (Some t) + (if virHashHasEntry (Some t) (Some name) then 0 else 1).
Proof.
  intros W Hb. apply wf_wellFormed in W.
  destruct (chainFind name (bucket t (virHashComputeKey t name))) as [[i entry]|] eqn:E.
  - pose proof (chainFind_Some _ _ _ _ E) as [Hl Hn].
    pose proof (overwritten_wellFormed t name i entry userdata W Hl Hn) as W'.
    destruct (unlinked_wellFormed t name i entry W Hl) as (Wu & _ & Hnotin).
    rewrite Hn in Hnotin.
    pose proof (overwritten_entries t name i entry userdata W Hl) as Hperm.
    destruct (inserted_lookups _ _ name userdata Wu W' Hnotin Hperm) as (H1 & H2 & H3).
    assert (Hh : virHashHasEntry (Some t) (Some name) = true)
      by (apply hasEntry_true; eauto).
    exists (overwritten t name i userdata). rewrite Hh.
    split_and!; try done.
    + unfold virHashUpdateEntry, virHashAddOrUpdateEntry. rewrite E, Hn.
      rewrite (lookup_chainFind t name i entry E). unfold freeEvents, overwritten.
      by destruct (ht_dataFree t =? NULL).
    + by apply wf_wellFormed.
    + intros other Hne. destruct (H3 other Hne) as [-> ->].
      by apply (unlinked_lookups t name i entry).
    + rewrite !size_wellFormed by done. simpl. lia.
  - assert (Hh : virHashHasEntry (Some t) (Some name) = false) by by apply hasEntry_false.
    apply chainFind_None_keys in E; [|done].
    destruct (addOrUpdate_absent t name userdata true W E Hb)
      as (t' & Eq & W' & Hperm & Hc & _).
    destruct (inserted_lookups t t' name userdata W W' E Hperm) as (H1 & H2 & H3).
    exists t'. rewrite Hh. split_and!; try done.
    + by apply wf_wellFormed.
    + rewrite !size_wellFormed by done. done.
Qed.

(** ** Removal *)

(** X4. [virHashRemoveEntry] on a well-formed table returns 0 exactly
    when the key was present, leaves a well-formed table in which the key
    is absent, and does not change what any other name is looked up
    to. *)
Theorem remove_keeps_other_keys (t : virHashTable) (name : string) :
  wf t ->
  exists t' evs,
    virHashRemoveEntry (Some t) (Some name) =
      (if virHashHasEntry (Some t) (Some name) then 0 else -1, Some t', evs) /\
    wf t' /\
    virHashHasEntry (Some t') (Some name) = false /\
    virHashLookup (Some t') (Some name) = NULL /\
    (forall other, other <> name ->
       virHashLookup (Some t') (Some other) = virHashLookup (Some t) (Some other) /\
       virHashHasEntry (Some t') (Some other) = virHashHasEntry (Some t) (Some other)).
Proof.
  intros W. apply wf_wellFormed in W.
  destruct (chainFind name (bucket t (virHashComputeKey t name))) as [[i entry]|] eqn:E.
  - pose proof (chainFind_Some _ _ _ _ E) as [Hl Hn].
    destruct (unlinked_wellFormed t name i entry W Hl) as (Wu & _ & Hnotin).
    rewrite Hn in Hnotin.
    assert (Hh : virHashHasEntry (Some t) (Some name) = true)
      by (apply hasEntry_true; eauto).
    destruct (lookup_absent _ name Wu Hnotin) as [Hl' Hh'].
    eexists _, _. rewrite Hh. split; [by apply remove_present_eq|].
    split_and!; try done.
    + by apply wf_wellFormed.
    + by apply (unlinked_lookups t name i entry).
  - assert (Hh : virHashHasEntry (Some t) (Some name) = false) by by apply hasEntry_false.
    eexists _, _. rewrite Hh. split; [by apply remove_absent_eq|].
    split_and!; try done.
    + by apply wf_wellFormed.
    + unfold virHashLookup, virHashGetEntry. by rewrite E.
Qed.

(** X5. Adding a key that a well-formed table does not hold and then
    removing it gives back the mapping: the removal succeeds with one
    destructor call, on the payload that was added, when a destructor is
    registered, and afterwards every name is looked up to what it was
    before the two calls and the size is what it was. *)
Theorem add_then_remove (t : virHashTable) (name : string) (userdata : Z) :
  wf t ->
  ht_nbElems t < 2 ^ 63 - 1 ->
  virHashHasEntry (Some t) (Some name) = false ->
  exists t1 t2,
    virHashAddEntry (Some t) (Some name) userdata = (0, Some t1, []) /\
    virHashRemoveEntry (Some t1) (Some name) =
      (0, Some t2, freeEvents (ht_dataFree t) [mkEntry name userdata]) /\
    wf t2 /\
    virHashEntries t2 ≡ₚ virHashEntries t /\
    (forall other,
       virHashLookup (Some t2) (Some other) = virHashLookup (Some t) (Some other) /\
       virHashHasEntry (Some t2) (Some other) = virHashHasEntry (Some t) (Some other)) /\
    virHashSize (Some t2) = virHashSize (Some t).
Proof.
  intros W Hb Hh. apply wf_wellFormed in W.
  apply hasEntry_false, chainFind_None_keys in Hh; [|done].
  destruct (addOrUpdate_absent t name userdata false W Hh Hb)
    as (t1 & E1 & W1 & Hperm1 & Hc1 & Hd1 & _).
  assert (Hin : mkEntry name userdata ∈ virHashEntries t1) by (rewrite Hperm1; left).
  pose proof (getEntry_Some t1 _ W1 Hin) as Hg. simpl in Hg.
  destruct (chainFind name (bucket t1 (virHashComputeKey t1 name))) as [[i entry]|] eqn:E;
    simpl in Hg; [|done].
  injection Hg as ->.
  pose proof (chainFind_Some _ _ _ _ E) as [Hl Hn].
  destruct (unlinked_wellFormed t1 name i _ W1 Hl) as (W2 & Hc2 & _).
  pose proof (unlinked_entries t1 name i _ W1 Hl) as Hperm2.
  assert (Hperm : virHashEntries (unlinked t1 name i) ≡ₚ virHashEntries t).
  { rewrite Hperm1 in Hperm2. by apply Permutation_cons_inv in Hperm2. }
  exists t1, (unlinked t1 name i). split_and!; try done.
  - rewrite (remove_present_eq t1 name i _ E). rewrite Hd1. unfold freeEvents. simpl.
    by destruct (ht_dataFree t =? NULL).
  - by apply wf_wellFormed.
  - intros other. apply lookup_same. by apply getEntry_perm.
  - rewrite !size_wellFormed by done. lia.
Qed.

(** X6. For a key whose payload is not null, [virHashSteal] leaves the
    table that [virHashRemoveEntry] leaves and returns the payload, and
    differs from it only in making no destructor call. *)
Theorem steal_is_remove_without_destructor (t : virHashTable) (name : string) :
  virHashLookup (Some t) (Some name) <> NULL ->
  exists t',
    virHashSteal (Some t) (Some name) = (virHashLookup (Some t) (Some name), Some t', []) /\
    virHashRemoveEntry (Some t) (Some name) =
      (0, Some t',
       freeEvents (ht_dataFree t) [mkEntry name (virHashLookup (Some t) (Some name))]).
Proof.
  intros Hl.
  destruct (chainFind name (bucket t (virHashComputeKey t name))) as [[i entry]|] eqn:E.
  2:{ exfalso. apply Hl. unfold virHashLookup, virHashGetEntry. by rewrite E. }
  rewrite (lookup_chainFind t name i entry E) in *.
  exists (unlinked t name i). split; [by apply steal_present_eq|].
  rewrite (remove_present_eq t name i entry E). unfold freeEvents. simpl.
  by destruct (ht_dataFree t =? NULL).
Qed.

(** ** A fresh table *)

Lemma entries_new randomBits dataFree : virHashEntries (virHashNew randomBits dataFree) = [].
Proof. done. Qed.

(** X7. A table that [virHashNew] returns has 32 buckets and no
    element. Whatever the seed drawn and the name asked for, a lookup
    returns null, the name is reported absent, a removal fails with -1, a
    steal returns null, all without a change of the table or a call, a
    walk calls nothing, and the snapshot holds the terminating element
    alone. *)
Theorem new_table_is_empty (randomBits dataFree : Z) (name : string) :
  let t := virHashNew randomBits dataFree in
  wf t /\
  ht_size t = 32 /\ length (ht_table t) = 32%nat /\
  virHashSize (Some t) = 0 /\
  virHashLookup (Some t) (Some name) = NULL /\
  virHashHasEntry (Some t) (Some name) = false /\
  virHashRemoveEntry (Some t) (Some name) = (-1, Some t, []) /\
  virHashSteal (Some t) (Some name) = (NULL, Some t, []) /\
  (forall (A : Type) (iter : virHashIterator A) (opaque : A),
     virHashForEach (Some t) (Some iter) opaque = (0, opaque)) /\
  (forall sortKeys, virHashGetItems (Some t) sortKeys = ([sentinel], 0)).
Proof.
  intros t. pose proof (wellFormed_new randomBits dataFree) as W. fold t in W.
  assert (Hn : name ∉ virHashKeys t) by apply not_elem_of_nil.
  destruct (lookup_absent t name W Hn) as [Hl Hh].
  split_and!; try done.
  - apply remove_absent_eq. by apply hasEntry_false.
  - unfold virHashSteal. by rewrite Hl.
  - intros sortKeys. rewrite (getItems_wellFormed t sortKeys W). by destruct sortKeys.
Qed.

(** ** Walks *)




Lemma forEachItems_entries {A} (iter : virHashIterator A) entries tail opaque :
  forEachItems iter ((toPair <$> entries) ++ sentinel :: tail) opaque
  = ((if (forEachEntries iter entries opaque).1 <? 0 then -1 else 0),
     (forEachEntries iter entries opaque).2).
Proof.
  revert opaque. induction entries as [|entry next IH]; intros opaque; simpl; [done|].
  destruct (iter (e_payload entry) (e_name entry) opaque) as [ret opaque'].
  destruct (ret <? 0) eqn:E; simpl; [by rewrite E|]. apply IH.
Qed.

(** X9. On a well-formed table [virHashForEachSafe] makes the calls that
    [virHashForEach] makes, in the same order and with the same opaque
    state at the end, and stops where it stops; it returns -1 where
    [virHashForEach] returns the negative value of the callback, and 0
    otherwise. *)
Theorem forEachSafe_is_forEach {A : Type} (t : virHashTable) (iter : virHashIterator A)
    (opaque : A) :
  wf t ->
  virHashForEachSafe (Some t) iter opaque
  = ((if (virHashForEach (Some t) (Some iter) opaque).1 <? 0 then -1 else 0),
     (virHashForEach (Some t) (Some iter) opaque).2).
Proof.
  intros W. apply wf_wellFormed in W. unfold virHashForEachSafe.
  rewrite (getItems_wellFormed t false W). cbn [fst].
  destruct ((toPair <$> virHashEntries t) ++ [sentinel]) eqn:E;
    [by apply app_eq_nil in E as [_ ?]|].
  rewrite <- E. apply forEachItems_entries.
Qed.

(** X10. On a well-formed table [virHashGetItems] without sorting
    returns the entries in the order in which [virHashForEach] visits
    them, followed by the element with a null key, and stores the size
    of the table through [nitems]; the sorted snapshot is a permutation
    of it. *)
Theorem getItems_unsorted (t : virHashTable) :
  wf t ->
  virHashGetItems (Some t) false
  = ((toPair <$> virHashEntries t) ++ [sentinel], virHashSize (Some t)) /\
  Z.of_nat (length (virHashGetItems (Some t) false).1) = virHashSize (Some t) + 1 /\
  (virHashGetItems (Some t) true).1 ≡ₚ (virHashGetItems (Some t) false).1 /\
  (virHashGetItems (Some t) true).2 = (virHashGetItems (Some t) false).2.
Proof.
  intros W. apply wf_wellFormed in W.
  rewrite (getItems_wellFormed t false W), (getItems_wellFormed t true W). cbn [fst snd].
  split_and!; try done.
  - rewrite length_app, length_fmap, (size_wellFormed t W), (wf_count t W). simpl. lia.
  - by rewrite (isort_perm entryCmp (virHashEntries t)).
Qed.

(** ** Removal by a test on the entries *)

Lemma freeEvents_cons dataFree entry entries :
  freeEvents dataFree (entry :: entries)
  = (if dataFree =? NULL then [] else [EvDataFree dataFree (e_payload entry)])
    ++ freeEvents dataFree entries.
Proof. unfold freeEvents. by destruct (dataFree =? NULL). Qed.

Lemma freeEvents_app dataFree l k :
  freeEvents dataFree (l ++ k) = freeEvents dataFree l ++ freeEvents dataFree k.
Proof. unfold freeEvents. destruct (dataFree =? NULL); [done|]. by rewrite fmap_app. Qed.

Lemma removeSetChain_searcherOf p dataFree chain (st : removeSetState unit) :
  let '(kept, st') := removeSetChain (searcherOf p) dataFree chain st in
  kept = List.filter (fun entry => negb (accepts p entry)) chain /\
  rs_opaque st' = rs_opaque st /\
  rs_events st' = rs_events st ++ freeEvents dataFree (List.filter (accepts p) chain).
Proof.
  revert st. induction chain as [|entry next IH]; intros st.
  - simpl. unfold freeEvents. destruct (dataFree =? NULL); by rewrite app_nil_r.
  - cbn [removeSetChain List.filter]. unfold searcherOf at 1.
    change (p (e_payload entry) (e_name entry)) with (accepts p entry).
    destruct (accepts p entry);
      [change (1 =? 0) with false|change (0 =? 0) with true]; cbn [negb].
    + specialize (IH (mkRS (wrap_size_t (rs_count st + 1)) (wrap_size_t (rs_nbElems st - 1))
                          (rs_opaque st)
                          (rs_events st ++
                           (if dataFree =? NULL then []
                            else [EvDataFree dataFree (e_payload entry)])))).
      destruct (removeSetChain (searcherOf p) dataFree next _) as [kept st'].
      destruct IH as (-> & -> & ->). simpl.
      by rewrite freeEvents_cons, <- app_assoc.
    + specialize (IH (mkRS (rs_count st) (rs_nbElems st) (rs_opaque st) (rs_events st))).
      destruct (removeSetChain (searcherOf p) dataFree next _) as [kept st'].
      by destruct IH as (-> & -> & ->).
Qed.

Lemma filter_join (f : virHashEntry -> bool) (buckets : list (list virHashEntry)) :
  List.filter f (mjoin buckets) = mjoin (List.filter f <$> buckets).
Proof.
  induction buckets as [|chain rest IH]; [done|].
  change (mjoin (chain :: rest)) with (chain ++ mjoin rest).
  rewrite List.filter_app, IH. done.
Qed.

Lemma removeSetBuckets_searcherOf p dataFree buckets (st : removeSetState unit) :
  let '(buckets', st') := removeSetBuckets (searcherOf p) dataFree buckets st in
  buckets' = List.filter (fun entry => negb (accepts p entry)) <$> buckets /\
  rs_opaque st' = rs_opaque st /\
  rs_events st' = rs_events st ++ freeEvents dataFree (List.filter (accepts p) (mjoin buckets)).
Proof.
  revert st. induction buckets as [|chain rest IH]; intros st; simpl.
  - unfold freeEvents. destruct (dataFree =? NULL); by rewrite app_nil_r.
  - pose proof (removeSetChain_searcherOf p dataFree chain st) as H1.
    destruct (removeSetChain (searcherOf p) dataFree chain st) as [chain' st1].
    destruct H1 as (-> & Ho & He). specialize (IH st1).
    destruct (removeSetBuckets (searcherOf p) dataFree rest st1) as [rest' st2].
    destruct IH as (-> & -> & ->). split_and!; try done.
    rewrite He, List.filter_app, freeEvents_app. by rewrite app_assoc.
Qed.

Lemma removeSetChain_count {A} (iter : virHashSearcher A) dataFree chain st :
  0 <= rs_count st < 2 ^ 64 ->
  let '(kept, st') := removeSetChain iter dataFree chain st in
  0 <= rs_count st' < 2 ^ 64 /\
  exists k, rs_count st' + Z.of_nat (length kept)
            = rs_count st + Z.of_nat (length chain) + k * 2 ^ 64.
Proof.
  revert st. induction chain as [|entry next IH]; intros st Hst; simpl.
  - split; [done|]. exists 0. lia.
  - destruct (iter (e_payload entry) (e_name entry) (rs_opaque st)) as [r opaque'].
    destruct (r =? 0).
    + specialize (IH (mkRS (rs_count st) (rs_nbElems st) opaque' (rs_events st)) Hst).
      destruct (removeSetChain iter dataFree next _) as [kept st'].
      destruct IH as (Hr & k & Hk). simpl in *. split; [done|]. exists k. lia.
    + set (st1 := mkRS _ _ _ _).
      assert (Hst1 : 0 <= rs_count st1 < 2 ^ 64) by apply wrap_size_t_range.
      specialize (IH st1 Hst1).
      destruct (removeSetChain iter dataFree next st1) as [kept st'].
      destruct IH as (Hr & k & Hk). simpl in Hk.
      destruct (wrap_size_t_eq (rs_count st + 1)) as [q Hq].
      split; [done|]. exists (k + q). lia.
Qed.

Lemma removeSetBuckets_count {A} (iter : virHashSearcher A) dataFree buckets st :
  0 <= rs_count st < 2 ^ 64 ->
  let '(buckets', st') := removeSetBuckets iter dataFree buckets st in
  0 <= rs_count st' < 2 ^ 64 /\
  exists k, rs_count st' + Z.of_nat (length (mjoin buckets'))
            = rs_count st + Z.of_nat (length (mjoin buckets)) + k * 2 ^ 64.
Proof.
  revert st. induction buckets as [|chain rest IH]; intros st Hst; simpl.
  - split; [done|]. exists 0. lia.
  - pose proof (removeSetChain_count iter dataFree chain st Hst) as H1.
    destruct (removeSetChain iter dataFree chain st) as [chain' st1].
    destruct H1 as (Hr1 & k1 & Hk1). specialize (IH st1 Hr1).
    destruct (removeSetBuckets iter dataFree rest st1) as [rest' st2].
    destruct IH as (Hr2 & k2 & Hk2). split; [done|]. exists (k1 + k2).
    change (mjoin (chain :: rest)) with (chain ++ mjoin rest).
    change (mjoin (chain' :: rest')) with (chain' ++ mjoin rest').
    rewrite !length_app. lia.
Qed.

Lemma filter_split_length (f : virHashEntry -> bool) l :
  (length (List.filter f l) + length (List.filter (fun x => negb (f x)) l) = length l)%nat.
Proof.
  induction l as [|x l IH]; simpl; [done|]. destruct (f x); simpl; lia.
Qed.

Lemma elem_of_filter (f : virHashEntry -> bool) l x :
  x ∈ List.filter f l <-> x ∈ l /\ f x = true.
Proof. rewrite !list_elem_of_In. apply List.filter_In. Qed.

Lemma removeSet_searcherOf t p :
  wellFormed t ->
  exists t',
    virHashRemoveSet (Some t) (Some (searcherOf p)) tt =
      (Z.of_nat (length (List.filter (accepts p) (virHashEntries t))), Some t', tt,
       freeEvents (ht_dataFree t) (List.filter (accepts p) (virHashEntries t))) /\
    wellFormed t' /\
    ht_table t' = (List.filter (fun entry => negb (accepts p entry)) <$> ht_table t) /\
    virHashEntries t' = List.filter (fun entry => negb (accepts p entry)) (virHashEntries t) /\
    ht_nbElems t' = ht_nbElems t - Z.of_nat (length (List.filter (accepts p) (virHashEntries t))) /\
    ht_size t' = ht_size t /\ ht_seed t' = ht_seed t /\ ht_dataFree t' = ht_dataFree t.
Proof.
  intros W.
  destruct (removeSet_wellFormed t (searcherOf p) tt W)
    as (t' & count & opaque' & evs & E & W' & _ & _).
  unfold virHashRemoveSet in *.
  pose proof (removeSetBuckets_searcherOf p (ht_dataFree t) (ht_table t)
                (mkRS 0 (ht_nbElems t) tt [])) as H1.
  assert (H0 : 0 <= rs_count (mkRS 0 (ht_nbElems t) tt []) < 2 ^ 64) by (simpl; lia).
  pose proof (removeSetBuckets_count (searcherOf p) (ht_dataFree t) (ht_table t) _ H0) as H2.
  destruct (removeSetBuckets (searcherOf p) (ht_dataFree t) (ht_table t) _) as [buckets st].
  destruct H1 as (Hb & Ho & He). destruct H2 as (Hr & k & Hk).
  injection E as <- <- <- <-. simpl in *.
  pose proof (wf_count _ W') as Hc'. simpl in Hc'. unfold virHashEntries in Hc'. simpl in Hc'.
  pose proof (wf_count t W) as Hc. pose proof (wf_repr t W) as Hrep.
  pose proof (filter_split_length (accepts p) (virHashEntries t)) as Hsplit.
  assert (Hent : mjoin buckets
                 = List.filter (fun entry => negb (accepts p entry)) (virHashEntries t)).
  { rewrite Hb. unfold virHashEntries. by rewrite filter_join. }
  rewrite Hent in *.
  assert (Hcount : rs_count st = Z.of_nat (length (List.filter (accepts p) (virHashEntries t)))).
  { fold (virHashEntries t) in Hk. lia. }
  exists (set_nbElems (set_table t buckets) (rs_nbElems st)).
  split_and!; try done.
  - unfold to_ssize_t. rewrite wrap_size_t_small by lia. rewrite Hcount, He.
    destruct (_ <? 2 ^ 63) eqn:El; [by destruct (rs_opaque st)|].
    apply Z.ltb_ge in El. lia.
  - simpl. lia.
Qed.

(** X11. [virHashRemoveSet] with a callback that answers from the payload
    and the name alone removes from a well-formed table exactly the
    entries the callback accepts: every chain keeps its other entries in
    their order, the value returned is the number of entries removed
    and the size goes down by it, the destructor, when registered, is
    called once on the payload of each entry removed, in the order of
    the walk, and the capacity stays. A name is looked up afterwards to
    what it was, unless its entry was removed. *)
Theorem removeSet_removes_accepted (t : virHashTable) (p : Z -> string -> bool) :
  wf t ->
  exists t',
    virHashRemoveSet (Some t) (Some (searcherOf p)) tt =
      (Z.of_nat (length (List.filter (accepts p) (virHashEntries t))), Some t', tt,
       freeEvents (ht_dataFree t) (List.filter (accepts p) (virHashEntries t))) /\
    wf t' /\
    ht_table t' = (List.filter (fun entry => negb (accepts p entry)) <$> ht_table t) /\
    virHashSize (Some t') =
      virHashSize (Some t) - Z.of_nat (length (List.filter (accepts p) (virHashEntries t))) /\
    ht_size t' = ht_size t /\
    (forall name,
       virHashHasEntry (Some t') (Some name) =
         virHashHasEntry (Some t) (Some name)
         && negb (p (virHashLookup (Some t) (Some name)) name) /\
       virHashLookup (Some t') (Some name) =
         if virHashHasEntry (Some t') (Some name)
         then virHashLookup (Some t) (Some name) else NULL).
Proof.
  intros W. apply wf_wellFormed in W.
  destruct (removeSet_searcherOf t p W) as (t' & E & W' & Ht & He & Hn & Hz & _).
  exists t'. split_and!; try done.
  - by apply wf_wellFormed.
  - rewrite !size_wellFormed by done. done.
  - intros name.
    destruct (virHashGetEntry (Some t) (Some name)) as [entry|] eqn:Eg.
    + pose proof (getEntry_elem t name entry Eg) as [Hin Hname].
      assert (Hl : virHashLookup (Some t) (Some name) = e_payload entry)
        by (unfold virHashLookup; by rewrite Eg).
      assert (Hh : virHashHasEntry (Some t) (Some name) = true)
        by (unfold virHashHasEntry; by rewrite Eg).
      rewrite Hl, Hh. simpl.
      replace (p (e_payload entry) name) with (accepts p entry)
        by (unfold accepts; by rewrite Hname).
      destruct (accepts p entry) eqn:Ea; simpl.
      * assert (Hnot : name ∉ virHashKeys t').
        { intros Hk. apply list_elem_of_fmap in Hk as (e' & Hn' & Hin').
          rewrite He in Hin'. apply elem_of_filter in Hin' as [Hin' Ha'].
          assert (e' = entry) as ->.
          { apply (inj_name (virHashEntries t)); try done; [apply (wf_unique t W)|congruence]. }
          by rewrite Ea in Ha'. }
        destruct (lookup_absent t' name W' Hnot) as [-> ->]. done.
      * assert (Hin' : entry ∈ virHashEntries t').
        { rewrite He. apply elem_of_filter. by rewrite Ea. }
        destruct (lookup_entry t' entry W' Hin') as [Hl' Hh'].
        rewrite Hname in Hl', Hh'. by rewrite Hl', Hh'.
    + assert (Hh : virHashHasEntry (Some t) (Some name) = false)
        by (unfold virHashHasEntry; by rewrite Eg).
      apply (getEntry_None t name W) in Eg.
      assert (Hnot : name ∉ virHashKeys t').
      { intros Hk. apply Eg. apply list_elem_of_fmap in Hk as (e' & -> & Hin').
        rewrite He in Hin'. apply elem_of_filter in Hin' as [Hin' _].
        by apply list_elem_of_fmap_2. }
      destruct (lookup_absent t' name W' Hnot) as [-> ->]. by rewrite Hh.
Qed.

(** ** Emptying and freeing *)

Lemma removeAll_searcherOf : _virHashRemoveAllIter = searcherOf (fun _ _ => true).
Proof. done. Qed.

Lemma filter_all (l : list virHashEntry) :
  List.filter (accepts (fun _ _ => true)) l = l.
Proof. induction l as [|x l IH]; simpl; [done|]. by rewrite IH. Qed.

Lemma filter_none (l : list virHashEntry) :
  List.filter (fun entry => negb (accepts (fun _ _ => true) entry)) l = [].
Proof. induction l as [|x l IH]; simpl; done. Qed.

(** X12. [virHashRemoveAll] empties a well-formed table: it calls the
    destructor, when one is registered, once on the payload of every
    entry, in the order of the walk, and leaves a table of the same
    capacity, seed and destructor with every chain empty and the size 0,
    in which every lookup returns null. *)
Theorem removeAll_empties (t : virHashTable) :
  wf t ->
  exists t',
    virHashRemoveAll (Some t) = (Some t', freeEvents (ht_dataFree t) (virHashEntries t)) /\
    wf t' /\
    ht_table t' = replicate (length (ht_table t)) [] /\
    virHashEntries t' = [] /\
    virHashSize (Some t') = 0 /\
    ht_size t' = ht_size t /\ ht_seed t' = ht_seed t /\ ht_dataFree t' = ht_dataFree t /\
    (forall name,
       virHashLookup (Some t') (Some name) = NULL /\
       virHashHasEntry (Some t') (Some name) = false).
Proof.
  intros W. apply wf_wellFormed in W.
  destruct (removeSet_searcherOf t (fun _ _ => true) W)
    as (t' & E & W' & Ht & He & Hn & Hz & Hs & Hd).
  rewrite filter_all in E, Hn. rewrite filter_none in He.
  exists t'. split_and!; try done.
  - unfold virHashRemoveAll. rewrite removeAll_searcherOf. by rewrite E.
  - by apply wf_wellFormed.
  - rewrite Ht. clear. induction (ht_table t) as [|chain rest IH]; [done|].
    rewrite fmap_cons, filter_none, IH. done.
  - rewrite (size_wellFormed t' W'), Hn, (wf_count t W). lia.
  - intros name. apply lookup_absent; [done|]. unfold virHashKeys. rewrite He.
    apply not_elem_of_nil.
Qed.

Lemma freeChain_events dataFree chain : freeChain dataFree chain = freeEvents dataFree chain.
Proof.
  induction chain as [|entry next IH]; simpl.
  - unfold freeEvents. by destruct (dataFree =? NULL).
  - by rewrite IH, freeEvents_cons.
Qed.

Lemma freeBuckets_events dataFree buckets :
  freeBuckets dataFree buckets = freeEvents dataFree (mjoin buckets).
Proof.
  induction buckets as [|chain rest IH]; simpl.
  - unfold freeEvents. by destruct (dataFree =? NULL).
  - change (mjoin (chain :: rest)) with (chain ++ mjoin rest).
    by rewrite IH, freeChain_events, freeEvents_app.
Qed.

(** X13. [virHashFree] calls the destructor, when one is registered,
    once on the payload of every entry, in the order of the walk, and
    makes no call for a null table or a table without destructor. These
    are the calls [virHashRemoveAll] makes on the same table. *)
Theorem free_calls_destructor_once (t : virHashTable) :
  virHashFree None = [] /\
  virHashFree (Some t) =
    (if ht_dataFree t =? NULL then []
     else (fun entry => EvDataFree (ht_dataFree t) (e_payload entry)) <$> virHashEntries t) /\
  length (virHashFree (Some t)) =
    (if ht_dataFree t =? NULL then 0%nat else length (virHashEntries t)) /\
  virHashFree (Some t) = (virHashRemoveAll (Some t)).2.
Proof.
  assert (E : virHashFree (Some t) = freeEvents (ht_dataFree t) (virHashEntries t))
    by apply freeBuckets_events.
  split_and!; try done.
  - rewrite E. unfold freeEvents. destruct (ht_dataFree t =? NULL); [done|].
    by rewrite length_fmap.
  - rewrite E. unfold virHashRemoveAll, virHashRemoveSet. rewrite removeAll_searcherOf.
    pose proof (removeSetBuckets_searcherOf (fun _ _ => true) (ht_dataFree t) (ht_table t)
                  (mkRS 0 (ht_nbElems t) tt [])) as H.
    destruct (removeSetBuckets _ _ _ _) as [buckets st].
    destruct H as (_ & _ & ->). simpl. by rewrite filter_all.
Qed.

(** ** Searching *)

Lemma searchEntries_searcherOf p entries :
  searchEntries (searcherOf p) entries tt = (head (List.filter (accepts p) entries), tt).
Proof.
  induction entries as [|entry next IH]; [done|].
  cbn [searchEntries List.filter]. unfold searcherOf at 1.
  change (p (e_payload entry) (e_name entry)) with (accepts p entry).
  destruct (accepts p entry);
    [change (1 =? 0) with false|change (0 =? 0) with true]; cbn iota; [done|apply IH].
Qed.

(** X14. [virHashSearch] with a callback that answers from the payload
    and the name alone returns the payload of the first entry, in the
    order of the walk, that the callback accepts, with a copy of its name
    when one is asked for, and null when the callback accepts no entry.
    On a well-formed table a search for the entry of a given name returns
    what [virHashLookup] returns for that name. *)
Theorem search_finds_first (t : virHashTable) (p : Z -> string -> bool) (wantName : bool)
    (name : string) :
  wf t ->
  virHashSearch (Some t) (Some (searcherOf p)) tt wantName =
    match head (List.filter (accepts p) (virHashEntries t)) with
    | Some entry => (e_payload entry, if wantName then Some (e_name entry) else None, tt)
    | None => (NULL, None, tt)
    end /\
  ((forall entry, entry ∈ virHashEntries t -> accepts p entry = false) ->
   virHashSearch (Some t) (Some (searcherOf p)) tt wantName = (NULL, None, tt)) /\
  virHashSearch (Some t) (Some (searcherOf (fun _ key => STREQ key name))) tt wantName =
    (virHashLookup (Some t) (Some name),
     if wantName && virHashHasEntry (Some t) (Some name) then Some name else None, tt).
Proof.
  intros W. apply wf_wellFormed in W.
  assert (E : forall q, virHashSearch (Some t) (Some (searcherOf q)) tt wantName =
    match head (List.filter (accepts q) (virHashEntries t)) with
    | Some entry => (e_payload entry, if wantName then Some (e_name entry) else None, tt)
    | None => (NULL, None, tt)
    end).
  { intros q. unfold virHashSearch. rewrite searchEntries_searcherOf.
    by destruct (head _). }
  split_and!; [apply E| |].
  - intros H. rewrite E.
    destruct (List.filter (accepts p) (virHashEntries t)) as [|entry l] eqn:Ef; [done|].
    assert (Hin : entry ∈ List.filter (accepts p) (virHashEntries t))
      by (rewrite Ef; left).
    apply elem_of_filter in Hin as [Hin Ha]. by rewrite (H entry Hin) in Ha.
  - rewrite E.
    destruct (List.filter _ (virHashEntries t)) as [|entry l] eqn:Ef; simpl.
    + assert (Hn : name ∉ virHashKeys t).
      { intros Hk. apply list_elem_of_fmap in Hk as (e & -> & Hin).
        assert (Hin' : e ∈ List.filter (accepts (fun _ key => STREQ key (e_name e)))
                         (virHashEntries t)).
        { apply elem_of_filter. split; [done|]. apply STREQ_refl. }
        rewrite Ef in Hin'. by apply elem_of_nil in Hin'. }
      destruct (lookup_absent t name W Hn) as [-> ->]. by rewrite andb_false_r.
    + assert (Hin : entry ∈ List.filter (accepts (fun _ key => STREQ key name))
                      (virHashEntries t)) by (rewrite Ef; left).
      apply elem_of_filter in Hin as [Hin Ha]. unfold accepts in Ha.
      apply STREQ_true in Ha.
      destruct (lookup_entry t entry W Hin) as [Hl Hh]. rewrite Ha in *.
      rewrite Hl, Hh. by rewrite andb_true_r.
Qed.

(** ** What every operation keeps *)

Lemma addOrUpdate_fields t name userdata is_update ret t' evs :
  wellFormed t ->
  virHashAddOrUpdateEntry (Some t) name userdata is_update = (ret, Some t', evs) ->
  ht_seed t' = ht_seed t /\ ht_dataFree t' = ht_dataFree t /\
  (ht_size t' = ht_size t \/ (ht_size t' = 8 * ht_size t /\ 8 * ht_size t <= 8 * 2048)).
Proof.
  intros W E. pose proof (wf_size t W) as Hsz.
  destruct name as [name|]; [|injection E as <- <- <-; auto].
  destruct (chainFind name (bucket t (virHashComputeKey t name))) as [[i entry]|] eqn:Ec.
  - unfold virHashAddOrUpdateEntry in E. rewrite Ec in E.
    destruct is_update; injection E as <- <- <-; auto.
  - rewrite (addOrUpdate_absent_eq t name userdata is_update Ec) in E.
    destruct (_ >? MAX_HASH_LEN); [|injection E as <- <- <-; auto].
    rewrite wrap_size_t_small in E by (unfold MAX_HASH_LEN; lia).
    destruct (decide (MAX_HASH_LEN * ht_size t <= 8 * 2048)) as [Hle|Hgt].
    + destruct (grow_accepted (appended t name userdata) (MAX_HASH_LEN * ht_size t))
        as (t'' & Eg & _ & _ & Hs & Hz & _ & Hd); [unfold MAX_HASH_LEN in *; lia|].
      rewrite Eg in E. injection E as <- <- <-.
      split_and!; [done..|]. right. unfold MAX_HASH_LEN in *. lia.
    + rewrite grow_rejected in E by (unfold MAX_HASH_LEN in *; lia).
      injection E as <- <- <-. auto.
Qed.

Lemma remove_fields t name ret t' evs :
  virHashRemoveEntry (Some t) name = (ret, Some t', evs) ->
  ht_seed t' = ht_seed t /\ ht_dataFree t' = ht_dataFree t /\ ht_size t' = ht_size t.
Proof.
  intros E. destruct name as [name|]; [|by injection E as <- <- <-].
  unfold virHashRemoveEntry in E.
  destruct (chainFind name _) as [[i entry]|]; by injection E as <- <- <-.
Qed.

Lemma steal_fields t name data t' evs :
  virHashSteal (Some t) name = (data, Some t', evs) ->
  ht_seed t' = ht_seed t /\ ht_dataFree t' = ht_dataFree t /\ ht_size t' = ht_size t.
Proof.
  unfold virHashSteal. destruct (_ =? NULL); [by intros [= <- <- <-]|].
  destruct (virHashRemoveEntry (Some (set_dataFree t NULL)) name) as [[ret table'] evs'] eqn:E.
  destruct table' as [t''|]; simpl; [|done].
  intros [= <- <- <-]. apply remove_fields in E as (Hs & _ & Hz). done.
Qed.

Lemma removeSet_fields {A} t (iter : option (virHashSearcher A)) opaque count t' opaque' evs :
  virHashRemoveSet (Some t) iter opaque = (count, Some t', opaque', evs) ->
  ht_seed t' = ht_seed t /\ ht_dataFree t' = ht_dataFree t /\ ht_size t' = ht_size t.
Proof.
  unfold virHashRemoveSet. destruct iter as [iter|]; [|by intros [= <- <- <- <-]].
  destruct (removeSetBuckets _ _ _ _) as [buckets st]. by intros [= <- <- <- <-].
Qed.

Lemma apply_op_fields t o :
  wellFormed t -> ht_nbElems t < 2 ^ 63 - 1 ->
  exists t',
    apply_op (Some t) o = Some t' /\ wellFormed t' /\
    ht_nbElems t' <= ht_nbElems t + 1 /\
    ht_seed t' = ht_seed t /\ ht_dataFree t' = ht_dataFree t /\
    (ht_size t' = ht_size t \/ (ht_size t' = 8 * ht_size t /\ 8 * ht_size t <= 8 * 2048)) /\
    match o with
    | OpAdd _ _ | OpUpdate _ _ => True
    | _ => ht_size t' = ht_size t
    end.
Proof.
  intros W Hb.
  destruct o as [name userdata|name userdata|name|name|A iter opaque|]; unfold apply_op.
  - destruct (addOrUpdate_inv t name userdata false W Hb) as (ret & t' & evs & E & W' & Hn).
    destruct (addOrUpdate_fields _ _ _ _ _ _ _ W E) as (? & ? & ?).
    unfold virHashAddEntry. rewrite E. by exists t'.
  - destruct (addOrUpdate_inv t name userdata true W Hb) as (ret & t' & evs & E & W' & Hn).
    destruct (addOrUpdate_fields _ _ _ _ _ _ _ W E) as (? & ? & ?).
    unfold virHashUpdateEntry. rewrite E. by exists t'.
  - destruct (remove_inv t name W) as (ret & t' & evs & E & W' & Hn).
    destruct (remove_fields _ _ _ _ _ E) as (? & ? & ?).
    rewrite E. exists t'. split_and!; auto. simpl. lia.
  - destruct (steal_inv t name W) as (ret & t' & evs & E & W' & Hn).
    destruct (steal_fields _ _ _ _ _ E) as (? & ? & ?).
    rewrite E. exists t'. split_and!; auto. simpl. lia.
  - destruct (removeSet_inv t iter opaque W) as (ret & t' & o' & evs & E & W' & Hn).
    destruct (removeSet_fields _ _ _ _ _ _ _ E) as (? & ? & ?).
    rewrite E. exists t'. split_and!; auto. simpl. lia.
  - unfold virHashRemoveAll.
    destruct (removeSet_inv t (Some _virHashRemoveAllIter) tt W)
      as (ret & t' & o' & evs & E & W' & Hn).
    destruct (removeSet_fields _ _ _ _ _ _ _ E) as (? & ? & ?).
    rewrite E. exists t'. split_and!; auto. simpl. lia.
Qed.

Lemma run_fields ops t n :
  wellFormed t -> ht_nbElems t <= n -> n + Z.of_nat (length ops) < 2 ^ 63 ->
  ht_size t ∈ [32; 256; 2048; 16384] ->
  exists t',
    run ops (Some t) = Some t' /\ wellFormed t' /\
    ht_nbElems t' <= n + Z.of_nat (length ops) /\
    ht_seed t' = ht_seed t /\ ht_dataFree t' = ht_dataFree t /\
    ht_size t <= ht_size t' /\ ht_size t' ∈ [32; 256; 2048; 16384].
Proof.
  revert t n. induction ops as [|o ops IH]; intros t n W Hn Hb Hc.
  - exists t. split_and!; try done. lia.
  - simpl length in Hb. rewrite Nat2Z.inj_succ in Hb.
    destruct (apply_op_fields t o W) as (t1 & E1 & W1 & Hn1 & Hs1 & Hd1 & Hz1 & _); [lia|].
    assert (Hc1 : ht_size t1 ∈ [32; 256; 2048; 16384]).
    { destruct Hz1 as [->|[-> Hle]]; [done|].
      rewrite !elem_of_cons in Hc. rewrite !elem_of_cons.
      destruct Hc as [H|[H|[H|[H|H]]]]; [lia..|by apply elem_of_nil in H]. }
    destruct (IH t1 (n + 1) W1) as (t' & E & W' & Hn' & Hs' & Hd' & Hz' & Hc'); [lia..|done|].
    exists t'. cbn [run fold_left]. rewrite E1. fold (run ops (Some t1)).
    split_and!; try done; try congruence.
    + simpl length. lia.
    + pose proof (wf_size t W). destruct Hz1 as [<-|[Hz1 _]]; lia.
Qed.

(** X15. The invariants of the data model hold after every sequence of
    operations on a fresh table (fewer than 2^63 operations, so that the
    element count fits its type): the array has [size] buckets, every
    entry is in the bucket that its name hashes to, no two entries have
    the same name, and [nbElems] is the number of entries. *)
Theorem run_keeps_invariants (randomBits dataFree : Z) (ops : list op) :
  Z.of_nat (length ops) < 2 ^ 63 ->
  exists t,
    run ops (Some (virHashNew randomBits dataFree)) = Some t /\
    wf t /\
    length (ht_table t) = Z.to_nat (ht_size t) /\
    (forall i chain entry,
       ht_table t !! i = Some chain -> entry ∈ chain ->
       virHashComputeKey t (e_name entry) = Z.of_nat i) /\
    NoDup (virHashKeys t) /\
    ht_nbElems t = Z.of_nat (length (virHashEntries t)).
Proof.
  intros Hb.
  destruct (run_fields ops (virHashNew randomBits dataFree) 0
              (wellFormed_new randomBits dataFree)) as (t & E & W & _);
    [done|lia|by left|].
  exists t. split_and!; try done.
  - by apply wf_wellFormed.
  - apply (wf_length t W).
  - apply (wf_placed t W).
  - apply (wf_unique t W).
  - apply (wf_count t W).
Qed.

(** X16. After every sequence of operations on a fresh table the
    capacity is 32, 256, 2048 or 16384, and the seed and the destructor
    are the ones the table was created with. No operation makes the
    capacity smaller, and only an insertion ([virHashAddEntry],
    [virHashUpdateEntry]) can change it. *)
Theorem run_keeps_capacity_seed_destructor (randomBits dataFree : Z) (ops : list op) :
  Z.of_nat (length ops) < 2 ^ 63 - 1 ->
  exists t,
    run ops (Some (virHashNew randomBits dataFree)) = Some t /\
    ht_size t ∈ [32; 256; 2048; 16384] /\
    ht_seed t = wrap32 randomBits /\
    ht_dataFree t = dataFree /\
    (forall o, exists t',
       apply_op (Some t) o = Some t' /\
       ht_size t <= ht_size t' /\
       match o with
       | OpAdd _ _ | OpUpdate _ _ => True
       | _ => ht_size t' = ht_size t
       end).
Proof.
  intros Hb.
  destruct (run_fields ops (virHashNew randomBits dataFree) 0
              (wellFormed_new randomBits dataFree)) as (t & E & W & Hn & Hs & Hd & _ & Hc);
    [done|lia|by left|].
  exists t. split_and!; try done.
  intros o. destruct (apply_op_fields t o W) as (t' & E' & _ & _ & _ & _ & Hz & Ho); [lia|].
  exists t'. split_and!; try done.
  pose proof (wf_size t W). destruct Hz as [->|[-> _]]; lia.
Qed.

(** ** Equality of well-formed tables *)

(** X17. When [virHashEqual] returns true for two distinct well-formed
    tables, the two tables hold the same keys: the walk over the keys of
    the first table alone is enough, since the sizes are equal and no
    table holds a key twice. Each key is then held by the second table
    with a payload that is not null and that the comparator finds equal
    to the payload in the first. *)
Theorem equal_tables_have_same_keys (mem : gmap Z virHashTable) (table1 table2 : Z)
    (compar : virHashValueComparator) (t1 t2 : virHashTable) :
  table1 <> table2 ->
  deref mem table1 = Some t1 -> deref mem table2 = Some t2 ->
  wf t1 -> wf t2 ->
  virHashEqual mem table1 table2 compar = true ->
  keySet (Some t1) = keySet (Some t2) /\
  virHashKeys t1 ≡ₚ virHashKeys t2 /\
  (forall name,
     virHashHasEntry (Some t1) (Some name) = virHashHasEntry (Some t2) (Some name)) /\
  (forall name, virHashHasEntry (Some t1) (Some name) = true ->
     virHashLookup (Some t2) (Some name) <> NULL /\
     compar (virHashLookup (Some t2) (Some name)) (virHashLookup (Some t1) (Some name)) = 0).
Proof.
  intros Hne H1 H2 W1 W2 E. apply wf_wellFormed in W1, W2.
  rewrite (equal_distinct mem table1 table2 compar t1 t2 Hne H1 H2) in E.
  apply andb_true_iff in E as [Es Ef]. apply Z.eqb_eq in Es.
  rewrite !size_wellFormed in Es by done.
  rewrite forallb_forall in Ef.
  assert (Hm : forall entry, entry ∈ virHashEntries t1 ->
            virHashLookup (Some t2) (Some (e_name entry)) <> NULL /\
            compar (virHashLookup (Some t2) (Some (e_name entry))) (e_payload entry) = 0).
  { intros entry Hin. apply entryMatches_spec, Ef. by apply list_elem_of_In. }
  assert (Hsub : forall name, name ∈ virHashKeys t1 -> name ∈ virHashKeys t2).
  { intros name Hin. apply list_elem_of_fmap in Hin as (entry & -> & Hin).
    destruct (Hm entry Hin) as [Hl _]. apply (hasEntry_keys t2 _ W2).
    unfold virHashLookup in Hl. unfold virHashHasEntry.
    by destruct (virHashGetEntry (Some t2) (Some (e_name entry))). }
  assert (Hperm : virHashKeys t1 ≡ₚ virHashKeys t2).
  { apply submseteq_length_Permutation.
    - apply NoDup_submseteq; [apply (wf_unique t1 W1)|done].
    - unfold virHashKeys. rewrite !length_fmap.
      pose proof (wf_count t1 W1). pose proof (wf_count t2 W2). lia. }
  split_and!; try done.
  - simpl. by rewrite Hperm.
  - intros name.
    destruct (virHashHasEntry (Some t1) (Some name)) eqn:E1.
    + apply (hasEntry_keys t1 name W1) in E1. rewrite Hperm in E1.
      symmetry. by apply (hasEntry_keys t2 name W2).
    + destruct (virHashHasEntry (Some t2) (Some name)) eqn:E2; [|done].
      apply (hasEntry_keys t2 name W2) in E2. rewrite <- Hperm in E2.
      apply (hasEntry_keys t1 name W1) in E2. congruence.
  - intros name Hh. apply (hasEntry_keys t1 name W1) in Hh.
    apply list_elem_of_fmap in Hh as (entry & -> & Hin).
    destruct (lookup_entry t1 entry W1 Hin) as [-> _]. by apply Hm.
Qed.

(** X18. [virHashEqual] does not depend on how the entries are laid out
    in the buckets: two distinct well-formed tables with the same
    entries, whatever their seeds and capacities, are found equal by
    every comparator that finds a payload equal to itself, provided no
    payload is null. *)
Theorem equal_ignores_layout (mem : gmap Z virHashTable) (table1 table2 : Z)
    (compar : virHashValueComparator) (t1 t2 : virHashTable) :
  table1 <> table2 ->
  deref mem table1 = Some t1 -> deref mem table2 = Some t2 ->
  wf t1 -> wf t2 ->
  virHashEntries t1 ≡ₚ virHashEntries t2 ->
  (forall entry, entry ∈ virHashEntries t1 -> e_payload entry <> NULL) ->
  (forall payload, compar payload payload = 0) ->
  virHashEqual mem table1 table2 compar = true /\
  virHashEqual mem table2 table1 compar = true.
Proof.
  intros Hne H1 H2 W1 W2 Hperm Hnn Hrefl. apply wf_wellFormed in W1, W2.
  assert (Hs : virHashSize (Some t1) = virHashSize (Some t2)).
  { rewrite !size_wellFormed by done.
    rewrite (wf_count t1 W1), (wf_count t2 W2). by rewrite Hperm. }
  split.
  - rewrite (equal_distinct mem table1 table2 compar t1 t2 Hne H1 H2).
    rewrite Hs, Z.eqb_refl. simpl. apply forallb_forall. intros entry Hin.
    apply list_elem_of_In in Hin. apply entryMatches_spec.
    assert (Hin2 : entry ∈ virHashEntries t2) by by rewrite <- Hperm.
    destruct (lookup_entry t2 entry W2 Hin2) as [-> _]. split; [by apply Hnn|apply Hrefl].
  - rewrite (equal_distinct mem table2 table1 compar t2 t1) by done.
    rewrite Hs, Z.eqb_refl. simpl. apply forallb_forall. intros entry Hin.
    apply list_elem_of_In in Hin. apply entryMatches_spec.
    assert (Hin1 : entry ∈ virHashEntries t1) by by rewrite Hperm.
    destruct (lookup_entry t1 entry W1 Hin1) as [-> _]. split; [by apply Hnn|apply Hrefl].
Qed.

(** ** The table as a finite map *)

Lemma pairs_fst (l : list virHashEntry) :
  ((fun entry => (e_name entry, e_payload entry)) <$> l).*1 = e_name <$> l.
Proof. induction l as [|x l IH]; [done|]. rewrite !fmap_cons, IH. done. Qed.

Lemma tableMap_lookup t name :
  wellFormed t ->
  tableMap t !! name = e_payload <$> virHashGetEntry (Some t) (Some name).
Proof.
  intros W. unfold tableMap.
  destruct (virHashGetEntry (Some t) (Some name)) as [entry|] eqn:E.
  - apply getEntry_elem in E as [Hin <-]. apply elem_of_list_to_map_1.
    + rewrite pairs_fst. apply (wf_unique t W).
    + by apply (list_elem_of_fmap_2 (fun e => (e_name e, e_payload e))).
  - apply (getEntry_None t name W) in E. apply not_elem_of_list_to_map_1.
    by rewrite pairs_fst.
Qed.

Lemma tableMap_cons t entry l :
  wellFormed t -> virHashEntries t ≡ₚ entry :: l ->
  tableMap t = <[e_name entry := e_payload entry]>
                 (list_to_map ((fun e => (e_name e, e_payload e)) <$> l)).
Proof.
  intros W Hperm. unfold tableMap.
  rewrite (list_to_map_proper _ ((fun e => (e_name e, e_payload e)) <$> (entry :: l))).
  - done.
  - rewrite pairs_fst. apply (wf_unique t W).
  - by rewrite Hperm.
Qed.

Lemma tableMap_absent t name :
  wellFormed t -> name ∉ virHashKeys t -> tableMap t !! name = None.
Proof.
  intros W Hn. rewrite (tableMap_lookup t name W).
  apply (getEntry_None t name W) in Hn. by rewrite Hn.
Qed.

Lemma tableMap_chainFind t name :
  wellFormed t ->
  tableMap t !! name =
    match chainFind name (bucket t (virHashComputeKey t name)) with
    | Some (_, entry) => Some (e_payload entry)
    | None => None
    end.
Proof.
  intros W. rewrite (tableMap_lookup t name W). unfold virHashGetEntry.
  by destruct (chainFind name _) as [[i entry]|].
Qed.

Lemma tableMap_step t o :
  wellFormed t -> ht_nbElems t < 2 ^ 63 - 1 ->
  exists t',
    apply_op (Some t) (tableOp o) = Some t' /\ wellFormed t' /\
    ht_nbElems t' <= ht_nbElems t + 1 /\
    tableMap t' = mapApply (tableMap t) o.
Proof.
  intros W Hb. destruct o as [name userdata|name userdata|name|name|]; unfold tableOp, apply_op.
  - (* add *)
    cbn [mapApply]. rewrite (tableMap_chainFind t name W).
    destruct (chainFind name (bucket t (virHashComputeKey t name))) as [[i entry]|] eqn:E.
    + exists t. unfold virHashAddEntry, virHashAddOrUpdateEntry.
      rewrite E. split_and!; try done. lia.
    + apply chainFind_None_keys in E; [|done].
      destruct (addOrUpdate_absent t name userdata false W E Hb)
        as (t' & Eq & W' & Hperm & Hc & _).
      exists t'. unfold virHashAddEntry. rewrite Eq. split_and!; try done; [lia|].
      by rewrite (tableMap_cons t' _ _ W' Hperm).
  - (* update *)
    cbn [mapApply].
    destruct (chainFind name (bucket t (virHashComputeKey t name))) as [[i entry]|] eqn:E.
    + pose proof (chainFind_Some _ _ _ _ E) as [Hl Hn].
      pose proof (overwritten_wellFormed t name i entry userdata W Hl Hn) as W'.
      exists (overwritten t name i userdata).
      unfold virHashUpdateEntry, virHashAddOrUpdateEntry. rewrite E, Hn.
      split_and!; try done; [simpl; lia|].
      rewrite (tableMap_cons _ _ _ W' (overwritten_entries t name i entry userdata W Hl)).
      rewrite (tableMap_cons t _ _ W (unlinked_entries t name i entry W Hl)).
      simpl. by rewrite Hn, insert_insert_eq.
    + apply chainFind_None_keys in E; [|done].
      destruct (addOrUpdate_absent t name userdata true W E Hb)
        as (t' & Eq & W' & Hperm & Hc & _).
      exists t'. unfold virHashUpdateEntry. rewrite Eq. split_and!; try done; [lia|].
      by rewrite (tableMap_cons t' _ _ W' Hperm).
  - (* remove *)
    cbn [mapApply].
    destruct (chainFind name (bucket t (virHashComputeKey t name))) as [[i entry]|] eqn:E.
    + pose proof (chainFind_Some _ _ _ _ E) as [Hl Hn].
      destruct (unlinked_wellFormed t name i entry W Hl) as (W' & Hc & Hnotin).
      exists (unlinked t name i). rewrite (remove_present_eq t name i entry E).
      split_and!; try done; [lia|].
      rewrite (tableMap_cons t _ _ W (unlinked_entries t name i entry W Hl)).
      rewrite Hn in *. symmetry. apply delete_insert_id.
      by apply (tableMap_absent _ name W').
    + exists t. rewrite (remove_absent_eq t name E). split_and!; try done; [lia|].
      symmetry. apply delete_id. apply tableMap_absent; [done|].
      by apply chainFind_None_keys.
  - (* steal *)
    cbn [mapApply]. rewrite (tableMap_chainFind t name W).
    destruct (chainFind name (bucket t (virHashComputeKey t name))) as [[i entry]|] eqn:E.
    + pose proof (chainFind_Some _ _ _ _ E) as [Hl Hn].
      destruct (e_payload entry =? NULL) eqn:Ep.
      * exists t. unfold virHashSteal. rewrite (lookup_chainFind t name i entry E), Ep.
        split_and!; try done. lia.
      * apply Z.eqb_neq in Ep.
        destruct (unlinked_wellFormed t name i entry W Hl) as (W' & Hc & Hnotin).
        exists (unlinked t name i). rewrite (steal_present_eq t name i entry E Ep).
        split_and!; try done; [lia|].
        rewrite (tableMap_cons t _ _ W (unlinked_entries t name i entry W Hl)).
        rewrite Hn in *. symmetry. apply delete_insert_id.
        by apply (tableMap_absent _ name W').
    + exists t. unfold virHashSteal, virHashLookup, virHashGetEntry. rewrite E.
      split_and!; try done. lia.
  - (* remove all *)
    cbn [mapApply].
    destruct (removeSet_searcherOf t (fun _ _ => true) W)
      as (t' & E & W' & _ & He & Hn & _).
    rewrite filter_none in He.
    exists t'. unfold virHashRemoveAll. rewrite removeAll_searcherOf, E.
    split_and!; try done; [lia|]. unfold tableMap. by rewrite He.
Qed.

Lemma tableMap_run ops t n :
  wellFormed t -> ht_nbElems t <= n -> n + Z.of_nat (length ops) < 2 ^ 63 ->
  exists t',
    run (tableOp <$> ops) (Some t) = Some t' /\ wellFormed t' /\
    tableMap t' = fold_left mapApply ops (tableMap t).
Proof.
  revert t n. induction ops as [|o ops IH]; intros t n W Hn Hb.
  - by exists t.
  - simpl length in Hb. rewrite Nat2Z.inj_succ in Hb.
    destruct (tableMap_step t o W) as (t1 & E1 & W1 & Hn1 & Hm1); [lia|].
    destruct (IH t1 (n + 1) W1) as (t' & E & W' & Hm); [lia..|].
    exists t'. rewrite fmap_cons. cbn [run fold_left]. rewrite E1.
    fold (run (tableOp <$> ops) (Some t1)). rewrite <- Hm1. done.
Qed.

Lemma tableMap_size t : wellFormed t -> virHashSize (Some t) = Z.of_nat (size (tableMap t)).
Proof.
  intros W. rewrite (size_wellFormed t W). unfold tableMap.
  rewrite map_size_list_to_map by (rewrite pairs_fst; apply (wf_unique t W)).
  rewrite length_fmap. apply (wf_count t W).
Qed.

(** X19. The table implements a finite map from names to payloads. After
    any sequence of adds, updates, removes, steals and remove-alls on a
    fresh table (fewer than 2^63 of them), a lookup returns the payload
    that the same sequence of operations on a map, started from the
    empty map, leaves for the name, and null when it leaves none;
    [virHashHasEntry] tells whether it leaves one, and [virHashSize] is
    the size of that map. In particular none of these results depends on
    the seed, on the hash function or on the destructor. *)
Theorem table_implements_map (randomBits dataFree : Z) (ops : list mapOp) :
  Z.of_nat (length ops) < 2 ^ 63 ->
  exists t,
    run (tableOp <$> ops) (Some (virHashNew randomBits dataFree)) = Some t /\
    wf t /\
    tableMap t = fold_left mapApply ops ∅ /\
    (forall name,
       virHashLookup (Some t) (Some name) = default NULL (fold_left mapApply ops ∅ !! name) /\
       virHashHasEntry (Some t) (Some name)
       = bool_decide (is_Some (fold_left mapApply ops ∅ !! name))) /\
    virHashSize (Some t) = Z.of_nat (size (fold_left mapApply ops ∅)).
Proof.
  intros Hb.
  destruct (tableMap_run ops (virHashNew randomBits dataFree) 0
              (wellFormed_new randomBits dataFree)) as (t & E & W & Hm); [done|lia|].
  change (tableMap (virHashNew randomBits dataFree)) with (∅ : gmap string Z) in Hm.
  exists t. split_and!; try done.
  - by apply wf_wellFormed.
  - intros name. rewrite <- Hm, (tableMap_lookup t name W).
    unfold virHashLookup, virHashHasEntry.
    by destruct (virHashGetEntry (Some t) (Some name)) as [entry|].
  - rewrite <- Hm. by apply tableMap_size.
Qed.

End VirHash.


(** * Concrete runs

    The operations with [lengthHashCodeGen] as the hash function. *)

Lemma abcTable_reachable :
  run lengthHashCodeGen [OpAdd (Some "b") 1; OpAdd (Some "a") 2; OpAdd (Some "c") 3]
    (Some (virHashNew 7 99)) = Some abcTable.
Proof. reflexivity. Qed.

Lemma nullTable_reachable :
  run lengthHashCodeGen [OpAdd (Some "a") NULL] (Some (virHashNew 7 99)) = Some nullTable.
Proof. reflexivity. Qed.

Lemma nullTable2_reachable :
  run lengthHashCodeGen [OpAdd (Some "a") NULL] (Some (virHashNew 8 99)) = Some nullTable2.
Proof. reflexivity. Qed.

Lemma eightTable_reachable :
  run lengthHashCodeGen
    [OpAdd (Some "k1") 1; OpAdd (Some "k2") 2; OpAdd (Some "k3") 3; OpAdd (Some "k4") 4;
     OpAdd (Some "k5") 5; OpAdd (Some "k6") 6; OpAdd (Some "k7") 7; OpAdd (Some "k8") 8]
    (Some (virHashNew 7 99)) = Some eightTable.
Proof. reflexivity. Qed.

Lemma nineTable_reachable :
  (virHashAddEntry lengthHashCodeGen (Some eightTable) (Some "k9") 9).1.2 = Some nineTable.
Proof. reflexivity. Qed.

(** The scenario of the specification: add x, add y, update x, remove y. *)
Example scenario_add_update_remove :
  let table := run lengthHashCodeGen
                 [OpAdd (Some "x") 1; OpAdd (Some "y") 2; OpUpdate (Some "x") 3]
                 (Some (virHashNew 7 NULL)) in
  let table' := apply_op lengthHashCodeGen table (OpRemove (Some "y")) in
  virHashLookup lengthHashCodeGen table (Some "x") = 3 /\
  virHashLookup lengthHashCodeGen table (Some "y") = 2 /\
  virHashSize table = 2 /\
  virHashSize table' = 1 /\
  virHashHasEntry lengthHashCodeGen table' (Some "y") = false.
Proof. repeat split. Qed.

Lemma size_counts_distinct_keys_witness :
  Z.of_nat (length [OpAdd (Some "x") 1; OpAdd (Some "y") 2; OpUpdate (Some "x") 3;
                    OpRemove (Some "y")]) < 2 ^ 63 - 1 /\
  let table := run lengthHashCodeGen
                 [OpAdd (Some "x") 1; OpAdd (Some "y") 2; OpUpdate (Some "x") 3;
                  OpRemove (Some "y")]
                 (Some (virHashNew 7 99)) in
  virHashSize table = Z.of_nat (size (keySet table)).
Proof.
  split; [reflexivity|].
  apply (size_counts_distinct_keys lengthHashCodeGen 7 99
           [OpAdd (Some "x") 1; OpAdd (Some "y") 2; OpUpdate (Some "x") 3;
            OpRemove (Some "y")]).
  reflexivity.
Defined.

(** C2, as stated, fails: a ninth entry appended to a chain of eight
    makes the chain longer than the threshold, a grow to 256 buckets
    would be accepted, and the table keeps its 32 buckets. *)
Lemma chain_of_nine_does_not_grow :
  wf lengthHashCodeGen eightTable /\
  virHashHasEntry lengthHashCodeGen (Some eightTable) (Some "k9") = false /\
  virHashAddEntry lengthHashCodeGen (Some eightTable) (Some "k9") 9 = (0, Some nineTable, []) /\
  Z.of_nat (length (bucket nineTable (virHashComputeKey lengthHashCodeGen nineTable "k9")))
    = 9 /\
  MAX_HASH_LEN * ht_size eightTable = 256 /\
  ht_size nineTable = 32 /\
  ~ growsWhenGrownChainExceeds lengthHashCodeGen eightTable "k9" 9.
Proof.
  split_and!; try reflexivity.
  unfold growsWhenGrownChainExceeds. vm_compute. discriminate.
Qed.

Lemma insertion_grows_after_long_chain_witness :
  wf lengthHashCodeGen nineTable /\
  virHashHasEntry lengthHashCodeGen (Some nineTable) (Some "k0") = false /\
  virHashAddOrUpdateEntry lengthHashCodeGen (Some nineTable) (Some "k0") 10 false =
    (0, insertionResult lengthHashCodeGen nineTable "k0" 10
          (chainExceeds lengthHashCodeGen nineTable "k0"), []).
Proof.
  split; [reflexivity|]. split; [reflexivity|].
  apply (insertion_grows_after_long_chain lengthHashCodeGen nineTable "k0" 10 false);
    reflexivity.
Defined.

(** The tenth entry of the chain does make the table grow. *)
Example chain_of_ten_grows :
  chainExceeds lengthHashCodeGen nineTable "k0" = true /\
  (ht_size <$> (virHashAddEntry lengthHashCodeGen (Some nineTable) (Some "k0") 10).1.2)
  = Some 256.
Proof. split; reflexivity. Qed.

Lemma grow_preserves_mapping_witness :
  let t' := default abcTable (virHashGrow lengthHashCodeGen (Some abcTable) 256).2 in
  wf lengthHashCodeGen abcTable /\
  virHashGrow lengthHashCodeGen (Some abcTable) 256 = (0, Some t') /\
  virHashEntries t' ≡ₚ virHashEntries abcTable.
Proof.
  split; [reflexivity|]. split; [reflexivity|].
  apply (grow_preserves_mapping lengthHashCodeGen abcTable _ 256); reflexivity.
Defined.

Lemma add_existing_key_fails_witness :
  virHashHasEntry lengthHashCodeGen (Some abcTable) (Some "a") = true /\
  virHashAddEntry lengthHashCodeGen (Some abcTable) (Some "a") 5
  = (-1, Some abcTable, [EvReportError "a"]).
Proof.
  split; [reflexivity|].
  apply (add_existing_key_fails lengthHashCodeGen abcTable "a" 5). reflexivity.
Defined.

Lemma update_existing_key_witness :
  virHashHasEntry lengthHashCodeGen (Some abcTable) (Some "a") = true /\
  exists i entry,
    bucket abcTable (virHashComputeKey lengthHashCodeGen abcTable "a") !! i = Some entry /\
    virHashUpdateEntry lengthHashCodeGen (Some abcTable) (Some "a") 5 =
      (0, Some (overwritten lengthHashCodeGen abcTable "a" i 5),
       if ht_dataFree abcTable =? NULL then []
       else [EvDataFree (ht_dataFree abcTable) (e_payload entry)]).
Proof.
  split; [reflexivity|].
  destruct (update_existing_key lengthHashCodeGen abcTable "a" 5 eq_refl)
    as (i & entry & H1 & _ & _ & H2 & _).
  exists i, entry. split; [exact H1|exact H2].
Defined.

Lemma remove_entry_spec_witness :
  wf lengthHashCodeGen abcTable /\
  virHashRemoveEntry lengthHashCodeGen (Some abcTable) None = (-1, Some abcTable, []).
Proof.
  split; [reflexivity|].
  apply (remove_entry_spec lengthHashCodeGen abcTable "a"). reflexivity.
Defined.

(** C7, as stated, fails: the key is present with a null payload, and
    the steal leaves the entry in the table. *)
Lemma steal_keeps_entry_with_null_payload :
  virHashHasEntry lengthHashCodeGen (Some nullTable) (Some "a") = true /\
  virHashHasEntry lengthHashCodeGen
    (virHashSteal lengthHashCodeGen (Some nullTable) (Some "a")).1.2 (Some "a") = true /\
  ~ stealTakesEntry lengthHashCodeGen nullTable "a".
Proof.
  split; [reflexivity|]. split; [reflexivity|].
  intros (table' & evs & E & Hh & _).
  vm_compute in E. injection E as <- <-. vm_compute in Hh. discriminate.
Qed.

Lemma steal_present_key_witness :
  wf lengthHashCodeGen abcTable /\
  virHashLookup lengthHashCodeGen (Some abcTable) (Some "a") <> NULL /\
  stealTakesEntry lengthHashCodeGen abcTable "a".
Proof.
  split; [reflexivity|]. split; [discriminate|].
  apply (steal_present_key lengthHashCodeGen abcTable "a"); [reflexivity|discriminate].
Defined.

(** C8, as stated, fails: two tables of one element each hold the same
    key with the same (null) payload, which the comparator finds equal,
    and [virHashEqual] returns false. *)
Lemma equal_rejects_null_payload :
  deref twoTables 1 = Some nullTable /\
  deref twoTables 2 = Some nullTable2 /\
  virHashSize (Some nullTable) = virHashSize (Some nullTable2) /\
  everyKeyMatches lengthHashCodeGen nullTable nullTable2 comparePayloads /\
  virHashEqual lengthHashCodeGen twoTables 1 2 comparePayloads = false /\
  ~ (virHashEqual lengthHashCodeGen twoTables 1 2 comparePayloads = true <->
     everyKeyMatches lengthHashCodeGen nullTable nullTable2 comparePayloads).
Proof.
  assert (H : everyKeyMatches lengthHashCodeGen nullTable nullTable2 comparePayloads).
  { intros entry Hin. vm_compute in Hin.
    apply list_elem_of_singleton in Hin as ->. split; reflexivity. }
  split_and!; try reflexivity; [exact H|].
  intros [_ Hc]. specialize (Hc H). vm_compute in Hc. discriminate.
Qed.

Lemma getItems_sorted_witness :
  wf lengthHashCodeGen abcTable /\
  exists sorted,
    virHashGetItems (Some abcTable) true
    = ((toPair <$> sorted) ++ [sentinel], virHashSize (Some abcTable)) /\
    e_name <$> sorted = ["a"; "b"; "c"]%string.
Proof.
  split; [reflexivity|].
  destruct (getItems_sorted lengthHashCodeGen abcTable eq_refl)
    as (sorted & H1 & _ & _ & _ & _ & _ & _ & H2).
  exists sorted. split; [exact H1|]. apply H2. reflexivity.
Defined.

(** The walk in sorted order, run. *)
Example forEachSorted_abc :
  virHashForEachSorted (Some abcTable) (fun _ key visited => (0, visited ++ [key])) []
  = (0, ["a"; "b"; "c"]%string).
Proof. reflexivity. Qed.

Lemma steal_null_payload_witness :
  virHashHasEntry lengthHashCodeGen (Some nullTable) (Some "a") = true /\
  virHashLookup lengthHashCodeGen (Some nullTable) (Some "a") = NULL /\
  virHashSteal lengthHashCodeGen (Some nullTable) (Some "a") = (NULL, Some nullTable, []).
Proof.
  split; [reflexivity|]. split; [reflexivity|].
  exact (proj1 (steal_null_payload lengthHashCodeGen nullTable "a" eq_refl eq_refl)).
Defined.

(** * Concrete runs of the further properties *)

Lemma abcTable2_reachable :
  run lengthHashCodeGen [OpAdd (Some "c") 3; OpAdd (Some "a") 2; OpAdd (Some "b") 1]
    (Some (virHashNew 8 99)) = Some abcTable2.
Proof. reflexivity. Qed.

Lemma lookup_agrees_with_walk_witness :
  wf lengthHashCodeGen abcTable /\
  (forall name, virHashHasEntry lengthHashCodeGen (Some abcTable) (Some name) = true
                <-> name ∈ virHashKeys abcTable).
Proof.
  split; [reflexivity|].
  apply (lookup_agrees_with_walk lengthHashCodeGen abcTable). reflexivity.
Defined.

Lemma add_then_lookup_witness :
  wf lengthHashCodeGen abcTable /\
  ht_nbElems abcTable < 2 ^ 63 - 1 /\
  virHashHasEntry lengthHashCodeGen (Some abcTable) (Some "d") = false /\
  exists t',
    virHashAddEntry lengthHashCodeGen (Some abcTable) (Some "d") 4 = (0, Some t', []) /\
    virHashLookup lengthHashCodeGen (Some t') (Some "d") = 4.
Proof.
  split; [reflexivity|]. split; [reflexivity|]. split; [reflexivity|].
  destruct (add_then_lookup lengthHashCodeGen abcTable "d" 4 eq_refl eq_refl eq_refl)
    as (t' & H1 & _ & H2 & _).
  exists t'. split; [exact H1|exact H2].
Defined.

Lemma update_is_upsert_witness :
  wf lengthHashCodeGen abcTable /\
  ht_nbElems abcTable < 2 ^ 63 - 1 /\
  exists t',
    wf lengthHashCodeGen t' /\
    virHashLookup lengthHashCodeGen (Some t') (Some "a") = 7.
Proof.
  split; [reflexivity|]. split; [reflexivity|].
  destruct (update_is_upsert lengthHashCodeGen abcTable "a" 7 eq_refl eq_refl)
    as (t' & _ & H1 & H2 & _).
  exists t'. split; [exact H1|exact H2].
Defined.

Lemma remove_keeps_other_keys_witness :
  wf lengthHashCodeGen abcTable /\
  exists t',
    wf lengthHashCodeGen t' /\
    virHashHasEntry lengthHashCodeGen (Some t') (Some "a") = false.
Proof.
  split; [reflexivity|].
  destruct (remove_keeps_other_keys lengthHashCodeGen abcTable "a" eq_refl)
    as (t' & evs & _ & H1 & H2 & _).
  exists t'. split; [exact H1|exact H2].
Defined.

Lemma add_then_remove_witness :
  wf lengthHashCodeGen nineTable /\
  ht_nbElems nineTable < 2 ^ 63 - 1 /\
  virHashHasEntry lengthHashCodeGen (Some nineTable) (Some "k0") = false /\
  exists t2,
    virHashEntries t2 ≡ₚ virHashEntries nineTable /\
    virHashSize (Some t2) = virHashSize (Some nineTable).
Proof.
  split; [reflexivity|]. split; [reflexivity|]. split; [reflexivity|].
  destruct (add_then_remove lengthHashCodeGen nineTable "k0" 10 eq_refl eq_refl eq_refl)
    as (t1 & t2 & _ & _ & _ & H1 & _ & H2).
  exists t2. split; [exact H1|exact H2].
Defined.

Lemma steal_is_remove_without_destructor_witness :
  virHashLookup lengthHashCodeGen (Some abcTable) (Some "a") <> NULL /\
  exists t',
    virHashSteal lengthHashCodeGen (Some abcTable) (Some "a") = (2, Some t', []) /\
    virHashRemoveEntry lengthHashCodeGen (Some abcTable) (Some "a")
    = (0, Some t', [EvDataFree 99 2]).
Proof.
  split; [discriminate|].
  destruct (steal_is_remove_without_destructor lengthHashCodeGen abcTable "a")
    as (t' & H1 & H2); [discriminate|].
  exists t'. split; [exact H1|exact H2].
Defined.

Lemma forEachSafe_is_forEach_witness :
  wf lengthHashCodeGen abcTable /\
  virHashForEachSafe (Some abcTable)
    (fun payload _ total => (if payload =? 2 then -5 else 0, total + payload)) 0
  = (-1, 3).
Proof.
  split; [reflexivity|].
  apply (forEachSafe_is_forEach lengthHashCodeGen abcTable
           (fun payload _ total => (if payload =? 2 then -5 else 0, total + payload)) 0).
  reflexivity.
Defined.

Lemma getItems_unsorted_witness :
  wf lengthHashCodeGen abcTable /\
  virHashGetItems (Some abcTable) false
  = ((toPair <$> virHashEntries abcTable) ++ [sentinel], virHashSize (Some abcTable)).
Proof.
  split; [reflexivity|].
  apply (getItems_unsorted lengthHashCodeGen abcTable). reflexivity.
Defined.

Lemma removeSet_removes_accepted_witness :
  wf lengthHashCodeGen abcTable /\
  exists t',
    virHashRemoveSet (Some abcTable) (Some (searcherOf (fun payload _ => payload <? 3))) tt
    = (2, Some t', tt, [EvDataFree 99 1; EvDataFree 99 2]) /\
    wf lengthHashCodeGen t'.
Proof.
  split; [reflexivity|].
  destruct (removeSet_removes_accepted lengthHashCodeGen abcTable
              (fun payload _ => payload <? 3) eq_refl) as (t' & H1 & H2 & _).
  exists t'. split; [exact H1|exact H2].
Defined.

Lemma removeAll_empties_witness :
  wf lengthHashCodeGen abcTable /\
  exists t',
    virHashRemoveAll (Some abcTable)
    = (Some t', [EvDataFree 99 1; EvDataFree 99 2; EvDataFree 99 3]) /\
    virHashSize (Some t') = 0.
Proof.
  split; [reflexivity|].
  destruct (removeAll_empties lengthHashCodeGen abcTable eq_refl)
    as (t' & H1 & _ & _ & _ & H2 & _).
  exists t'. split; [exact H1|exact H2].
Defined.

Lemma search_finds_first_witness :
  wf lengthHashCodeGen abcTable /\
  virHashSearch (Some abcTable) (Some (searcherOf (fun _ key => STREQ key "c"))) tt true
  = (virHashLookup lengthHashCodeGen (Some abcTable) (Some "c"),
     if true && virHashHasEntry lengthHashCodeGen (Some abcTable) (Some "c")
     then Some "c"%string else None, tt).
Proof.
  split; [reflexivity|].
  apply (search_finds_first lengthHashCodeGen abcTable (fun _ key => STREQ key "c") true "c").
  reflexivity.
Defined.

Lemma run_keeps_invariants_witness :
  Z.of_nat (length [OpAdd (Some "x") 1; OpSteal (Some "x"); OpUpdate (Some "y") 2;
                    OpRemoveAll]) < 2 ^ 63 /\
  exists t,
    run lengthHashCodeGen
      [OpAdd (Some "x") 1; OpSteal (Some "x"); OpUpdate (Some "y") 2; OpRemoveAll]
      (Some (virHashNew 7 99)) = Some t /\
    wf lengthHashCodeGen t.
Proof.
  split; [reflexivity|].
  destruct (run_keeps_invariants lengthHashCodeGen 7 99
              [OpAdd (Some "x") 1; OpSteal (Some "x"); OpUpdate (Some "y") 2; OpRemoveAll]
              eq_refl) as (t & H1 & H2 & _).
  exists t. split; [exact H1|exact H2].
Defined.

Lemma run_keeps_capacity_seed_destructor_witness :
  Z.of_nat (length [OpAdd (Some "x") 1; OpRemove (Some "x")]) < 2 ^ 63 - 1 /\
  exists t,
    run lengthHashCodeGen [OpAdd (Some "x") 1; OpRemove (Some "x")] (Some (virHashNew 7 99))
    = Some t /\
    ht_size t ∈ [32; 256; 2048; 16384].
Proof.
  split; [reflexivity|].
  destruct (run_keeps_capacity_seed_destructor lengthHashCodeGen 7 99
              [OpAdd (Some "x") 1; OpRemove (Some "x")] eq_refl) as (t & H1 & H2 & _).
  exists t. split; [exact H1|exact H2].
Defined.

Lemma equal_tables_have_same_keys_witness :
  1 <> 2 /\
  deref abcTables 1 = Some abcTable /\ deref abcTables 2 = Some abcTable2 /\
  wf lengthHashCodeGen abcTable /\ wf lengthHashCodeGen abcTable2 /\
  virHashEqual lengthHashCodeGen abcTables 1 2 comparePayloads = true /\
  keySet (Some abcTable) = keySet (Some abcTable2).
Proof.
  split; [discriminate|]. do 5 (split; [reflexivity|]).
  apply (equal_tables_have_same_keys lengthHashCodeGen abcTables 1 2 comparePayloads
           abcTable abcTable2); (reflexivity || discriminate).
Defined.

Lemma equal_ignores_layout_witness :
  1 <> 2 /\
  deref abcTables 1 = Some abcTable /\ deref abcTables 2 = Some abcTable2 /\
  wf lengthHashCodeGen abcTable /\ wf lengthHashCodeGen abcTable2 /\
  virHashEntries abcTable ≡ₚ virHashEntries abcTable2 /\
  (forall entry, entry ∈ virHashEntries abcTable -> e_payload entry <> NULL) /\
  (forall payload, comparePayloads payload payload = 0) /\
  virHashEqual lengthHashCodeGen abcTables 1 2 comparePayloads = true.
Proof.
  assert (Hperm : virHashEntries abcTable ≡ₚ virHashEntries abcTable2).
  { change ([mkEntry "b" 1; mkEntry "a" 2; mkEntry "c" 3]
            ≡ₚ [mkEntry "c" 3; mkEntry "a" 2; mkEntry "b" 1]).
    change ([mkEntry "b" 1; mkEntry "a" 2] ++ [mkEntry "c" 3]
            ≡ₚ [mkEntry "c" 3] ++ [mkEntry "a" 2; mkEntry "b" 1]).
    rewrite (Permutation_app_comm [_; _] [_]). apply Permutation_skip, Permutation_swap. }
  assert (Hnn : forall entry, entry ∈ virHashEntries abcTable -> e_payload entry <> NULL).
  { intros entry Hin. apply (Forall_forall (fun e => e_payload e <> NULL)
                               (virHashEntries abcTable)); [|exact Hin].
    repeat constructor; discriminate. }
  assert (Hrefl : forall payload, comparePayloads payload payload = 0).
  { intros payload. unfold comparePayloads. lia. }
  split; [discriminate|]. do 4 (split; [reflexivity|]).
  split; [exact Hperm|]. split; [exact Hnn|]. split; [exact Hrefl|].
  apply (equal_ignores_layout lengthHashCodeGen abcTables 1 2 comparePayloads
           abcTable abcTable2); (reflexivity || discriminate || assumption).
Defined.

Lemma table_implements_map_witness :
  Z.of_nat (length [MAdd "x" 1; MAdd "y" 2; MUpdate "x" 3; MSteal "y"]) < 2 ^ 63 /\
  exists t,
    run lengthHashCodeGen (tableOp <$> [MAdd "x" 1; MAdd "y" 2; MUpdate "x" 3; MSteal "y"])
      (Some (virHashNew 7 99)) = Some t /\
    tableMap t = fold_left mapApply [MAdd "x" 1; MAdd "y" 2; MUpdate "x" 3; MSteal "y"] ∅.
Proof.
  split; [reflexivity|].
  destruct (table_implements_map lengthHashCodeGen 7 99
              [MAdd "x" 1; MAdd "y" 2; MUpdate "x" 3; MSteal "y"] eq_refl)
    as (t & H1 & _ & H2 & _).
  exists t. split; [exact H1|exact H2].
Defined.
